(** * Qualitative coding store (packages/viewer/src/qualitative/store.ts)

    A shallow embedding of [createQualitativeStore]: the eight writable
    stores, the four derived stores, the mutation functions and the REFI-QDA
    exporter, followed by the properties proved about them.

    Conventions of the embedding:
    - a JavaScript object used as a dictionary is an association list kept in
      own-property order (array-index keys ascending, then the other keys in
      creation order); only own properties are modelled, so keys are assumed
      not to collide with names inherited from [Object.prototype];
    - a JavaScript [Set] is the list of its elements in insertion order;
    - [RowID], [Date] and [number] come from outside the file and are taken
      as parameters ([Host]), together with [String(rowId)] and
      [Date.prototype.toISOString];
    - [crypto.randomUUID()] (or its fallback) and [new Date()] read from two
      infinite sequences carried by the [World]. *)

From Stdlib Require Import Ascii String DecimalNat DecimalString.
From stdpp Require Import base decidable option numbers list sets strings.

Set Warnings "-clear-no-such-hyp".

Local Open Scope string_scope.
Local Open Scope list_scope.
Local Open Scope nat_scope.

(** ** JavaScript objects used as dictionaries *)

Definition JsObject (V : Type) : Type := list (string * V).

Definition obj_keys {V} (o : JsObject V) : list string := o.*1.
Definition obj_values {V} (o : JsObject V) : list V := o.*2.
Definition obj_entries {V} (o : JsObject V) : list (string * V) := o.

(** [o[k]], with [None] for [undefined]. *)
Fixpoint obj_get {V} (k : string) (o : JsObject V) : option V :=
  match o with
  | [] => None
  | (k', v) :: o' => if decide (k' = k) then Some v else obj_get k o'
  end.

Definition digit_value (a : ascii) : option N :=
  let n := N_of_ascii a in
  if bool_decide (48 ≤ n ≤ 57)%N then Some (n - 48)%N else None.

Fixpoint digits_value (s : string) (acc : N) : option N :=
  match s with
  | EmptyString => Some acc
  | String a s' =>
      match digit_value a with
      | Some d => digits_value s' (10 * acc + d)%N
      | None => None
      end
  end.

(** A key is an array index when it is the canonical decimal form of an
    integer between 0 and 2^32 - 2. *)
Definition array_index (k : string) : option N :=
  match k with
  | EmptyString => None
  | String a rest =>
      if bool_decide (a = "0"%char ∧ rest ≠ EmptyString) then None
      else match digits_value k 0 with
           | Some n => if bool_decide (n < 4294967295)%N then Some n else None
           | None => None
           end
  end.

Fixpoint obj_replace {V} (k : string) (v : V) (o : JsObject V) : JsObject V :=
  match o with
  | [] => []
  | (k', v') :: o' =>
      if decide (k' = k) then (k, v) :: o' else (k', v') :: obj_replace k v o'
  end.

(** A new array-index key goes before the first key that is not a smaller
    array index. *)
Fixpoint obj_insert_index {V} (n : N) (k : string) (v : V) (o : JsObject V)
  : JsObject V :=
  match o with
  | [] => [(k, v)]
  | (k', v') :: o' =>
      match array_index k' with
      | Some n' =>
          if bool_decide (n' < n)%N then (k', v') :: obj_insert_index n k v o'
          else (k, v) :: o
      | None => (k, v) :: o
      end
  end.

(** [o[k] = v]; also [{...o, [k]: v}], whose copy of [o] has the properties
    of [o] in the same order. *)
Definition obj_set {V} (k : string) (v : V) (o : JsObject V) : JsObject V :=
  match obj_get k o with
  | Some _ => obj_replace k v o
  | None =>
      match array_index k with
      | Some n => obj_insert_index n k v o
      | None => o ++ [(k, v)]
      end
  end.

(** ** JavaScript sets, in insertion order *)

Section JsSet.
Context {A : Type} `{!EqDecision A}.

Definition JsSet : Type := list A.

Definition set_add (s : JsSet) (x : A) : JsSet :=
  if decide (x ∈ s) then s else s ++ [x].

Definition set_delete (s : JsSet) (x : A) : JsSet :=
  filter (λ y, y ≠ x) s.

(** [new Set(iterable)] *)
Definition set_new (l : list A) : JsSet := fold_left set_add l [].

(** [Array.from(set)] *)
Definition array_from (s : JsSet) : list A := s.

End JsSet.

Arguments JsSet : clear implicits.

(** The double-quote character of the template literals. *)
Definition dq : string := String (ascii_of_nat 34) EmptyString.

(** [array.join(sep)] with the empty separator *)
Definition join (l : list string) : string := String.concat EmptyString l.

(** ** Values supplied by the host *)

(** [RowID] is imported from [charts/chart.js]; its equality is the one [Set]
    uses (SameValueZero). [number] is the type of IEEE doubles the store
    carries without inspecting them. *)
Class Host : Type := {
  RowID : Type;
  RowID_eq_dec :: EqDecision RowID;
  String_RowID : RowID → string;
  Date : Type;
  toISOString : Date → string;
  number : Type;
}.

(** ** Entities *)

Inductive CodeLevel : Set := Level1 | Level2 | Level3.

Inductive ActorType : Set := Human | NonHuman | Hybrid.

Inductive MemoType : Set := Theoretical | Methodological | Observational.

Inductive RelationType : Set :=
  IsA | PartOf | Causes | Contradicts | AssociatesWith.

Inductive Action : Set := Apply | Remove | Create | Merge | Split.

Inductive ActorRole : Set := Intermediary | Mediator.

#[global] Instance Action_eq_dec : EqDecision Action.
Proof. solve_decision. Defined.

Definition String_CodeLevel (l : CodeLevel) : string :=
  match l with Level1 => "1" | Level2 => "2" | Level3 => "3" end.

Definition String_MemoType (t : MemoType) : string :=
  match t with
  | Theoretical => "theoretical"
  | Methodological => "methodological"
  | Observational => "observational"
  end.

Section Store.
Context {host : Host}.

Record Code : Type := {
  code_id : string;
  code_name : string;
  code_description : string;
  code_color : string;
  code_parentId : option string;
  code_level : CodeLevel;
  code_createdAt : Date;
  code_createdBy : option string;
  code_frequency : nat;
  code_antActorType : option ActorType;
}.

(** [Partial<Code>] *)
Record PartialCode : Type := {
  partial_id : option string;
  partial_name : option string;
  partial_description : option string;
  partial_color : option string;
  partial_parentId : option string;
  partial_level : option CodeLevel;
  partial_createdAt : option Date;
  partial_createdBy : option string;
  partial_frequency : option nat;
  partial_antActorType : option ActorType;
}.

Record Memo : Type := {
  memo_id : string;
  memo_content : string;
  memo_linkedCodes : list string;
  memo_linkedDataPoints : list RowID;
  memo_memoType : MemoType;
  memo_createdAt : Date;
  memo_tags : list string;
}.

(** [Omit<Memo, "id" | "createdAt">] *)
Record MemoInput : Type := {
  mi_content : string;
  mi_linkedCodes : list string;
  mi_linkedDataPoints : list RowID;
  mi_memoType : MemoType;
  mi_tags : list string;
}.

Record CodeRelation : Type := {
  relation_id : string;
  relation_fromCode : string;
  relation_toCode : string;
  relation_relationType : RelationType;
  relation_strength : option number;
  relation_notes : option string;
}.

(** [Omit<CodeRelation, "id">] *)
Record RelationInput : Type := {
  ri_fromCode : string;
  ri_toCode : string;
  ri_relationType : RelationType;
  ri_strength : option number;
  ri_notes : option string;
}.

Record CodingEvent : Type := {
  event_timestamp : Date;
  event_action : Action;
  event_codeId : string;
  event_dataPointIds : list RowID;
  event_coder : option string;
  event_notes : option string;
}.

(** [Omit<CodingEvent, "timestamp">] *)
Record EventInput : Type := {
  ei_action : Action;
  ei_codeId : string;
  ei_dataPointIds : list RowID;
  ei_coder : option string;
  ei_notes : option string;
}.

Record Actor : Type := {
  actor_id : string;
  actor_name : string;
  actor_actorType : ActorType;
  actor_role : ActorRole;
  actor_description : option string;
}.

(** [Omit<Actor, "id">] *)
Record ActorInput : Type := {
  ai_name : string;
  ai_actorType : ActorType;
  ai_role : ActorRole;
  ai_description : option string;
}.

Record ActorLink : Type := {
  link_id : string;
  link_fromActor : string;
  link_toActor : string;
  link_translationType : string;
  link_dataPointIds : list RowID;
  link_notes : option string;
}.

(** [Omit<ActorLink, "id">] *)
Record LinkInput : Type := {
  li_fromActor : string;
  li_toActor : string;
  li_translationType : string;
  li_dataPointIds : list RowID;
  li_notes : option string;
}.

Record TemporalCode : Type := {
  temporal_id : string;
  temporal_codeId : string;
  temporal_startTime : number;
  temporal_endTime : number;
  temporal_videoId : RowID;
}.

(** ** The store and the world around it *)

(** The eight writables of [createQualitativeStore]. *)
Record Store : Type := {
  codes : list Code;
  memos : list Memo;
  relations : list CodeRelation;
  actors : list Actor;
  actorLinks : list ActorLink;
  temporalCodes : list TemporalCode;
  assignments : JsObject (list RowID);
  codingEvents : list CodingEvent;
}.

(** What [createQualitativeStore] starts from. *)
Definition empty_store : Store :=
  {| codes := []; memos := []; relations := []; actors := [];
     actorLinks := []; temporalCodes := []; assignments := [];
     codingEvents := [] |}.

(** [entropy n] is the string the n-th call of [crypto.randomUUID()] (or of
    the [Date.now()]/[Math.random()] fallback) produces, [clock n] the value
    of the n-th [new Date()]. *)
Record World : Type := {
  store : Store;
  entropy : nat → string;
  ids_drawn : nat;
  clock : nat → Date;
  dates_read : nat;
}.

Definition M (A : Type) : Type := World → A * World.

#[global] Instance M_ret : MRet M := λ A a w, (a, w).

#[global] Instance M_bind : MBind M :=
  λ A B k m w, let (a, w') := m w in k a w'.

(** [get(writable)] *)
Definition get {A} (field : Store → A) : M A := λ w, (field (store w), w).

Definition with_store (f : Store → Store) : M unit :=
  λ w, (tt, {| store := f (store w); entropy := entropy w;
               ids_drawn := ids_drawn w; clock := clock w;
               dates_read := dates_read w |}).

Definition randomUUID : M string :=
  λ w, (entropy w (ids_drawn w),
        {| store := store w; entropy := entropy w;
           ids_drawn := S (ids_drawn w); clock := clock w;
           dates_read := dates_read w |}).

(** [new Date()] *)
Definition new_Date : M Date :=
  λ w, (clock w (dates_read w),
        {| store := store w; entropy := entropy w;
           ids_drawn := ids_drawn w; clock := clock w;
           dates_read := S (dates_read w) |}).

(** [writable.update(fn)], one for each writable the functions update. *)
Definition codes_update (fn : list Code → list Code) : M unit :=
  with_store (λ s,
    {| codes := fn (codes s); memos := memos s; relations := relations s;
       actors := actors s; actorLinks := actorLinks s;
       temporalCodes := temporalCodes s; assignments := assignments s;
       codingEvents := codingEvents s |}).

Definition memos_update (fn : list Memo → list Memo) : M unit :=
  with_store (λ s,
    {| codes := codes s; memos := fn (memos s); relations := relations s;
       actors := actors s; actorLinks := actorLinks s;
       temporalCodes := temporalCodes s; assignments := assignments s;
       codingEvents := codingEvents s |}).

Definition relations_update (fn : list CodeRelation → list CodeRelation)
  : M unit :=
  with_store (λ s,
    {| codes := codes s; memos := memos s; relations := fn (relations s);
       actors := actors s; actorLinks := actorLinks s;
       temporalCodes := temporalCodes s; assignments := assignments s;
       codingEvents := codingEvents s |}).

Definition actors_update (fn : list Actor → list Actor) : M unit :=
  with_store (λ s,
    {| codes := codes s; memos := memos s; relations := relations s;
       actors := fn (actors s); actorLinks := actorLinks s;
       temporalCodes := temporalCodes s; assignments := assignments s;
       codingEvents := codingEvents s |}).

Definition actorLinks_update (fn : list ActorLink → list ActorLink) : M unit :=
  with_store (λ s,
    {| codes := codes s; memos := memos s; relations := relations s;
       actors := actors s; actorLinks := fn (actorLinks s);
       temporalCodes := temporalCodes s; assignments := assignments s;
       codingEvents := codingEvents s |}).

Definition assignments_update
  (fn : JsObject (list RowID) → JsObject (list RowID)) : M unit :=
  with_store (λ s,
    {| codes := codes s; memos := memos s; relations := relations s;
       actors := actors s; actorLinks := actorLinks s;
       temporalCodes := temporalCodes s; assignments := fn (assignments s);
       codingEvents := codingEvents s |}).

Definition codingEvents_update (fn : list CodingEvent → list CodingEvent)
  : M unit :=
  with_store (λ s,
    {| codes := codes s; memos := memos s; relations := relations s;
       actors := actors s; actorLinks := actorLinks s;
       temporalCodes := temporalCodes s; assignments := assignments s;
       codingEvents := fn (codingEvents s) |}).

(** ** Identifiers and colours *)

Definition createId (prefix : string) : M string :=
  id ← randomUUID; mret (prefix +:+ "-" +:+ id).

Definition palette : list string :=
  ["#2563eb"; "#16a34a"; "#f97316"; "#ef4444";
   "#8b5cf6"; "#14b8a6"; "#facc15"; "#ec4899"].

(** [toColor] is only called with an array length, so the index is a natural
    number and the lookup never leaves the palette. *)
Definition toColor (index : nat) : string :=
  default EmptyString (palette !! (index mod length palette)).

(** ** Derived stores *)

Definition assignmentsByRow (assignments' : JsObject (list RowID))
  : JsObject (list string) :=
  fold_left
    (λ result '(codeId, rows),
       fold_left
         (λ result rowId,
            let key := String_RowID rowId in
            let result := obj_set key (default [] (obj_get key result)) result in
            if decide (codeId ∈ default [] (obj_get key result)) then result
            else obj_set key (default [] (obj_get key result) ++ [codeId]) result)
         rows result)
    (obj_entries assignments') [].

Definition codesWithFrequency (codes' : list Code)
  (assignments' : JsObject (list RowID)) : list Code :=
  map (λ code,
         {| code_id := code_id code;
            code_name := code_name code;
            code_description := code_description code;
            code_color := code_color code;
            code_parentId := code_parentId code;
            code_level := code_level code;
            code_createdAt := code_createdAt code;
            code_createdBy := code_createdBy code;
            code_frequency :=
              length (default [] (obj_get (code_id code) assignments'));
            code_antActorType := code_antActorType code |})
      codes'.

(** Reading the derived store: its callback applied to the current values of
    the two writables it is derived from. *)
Definition read_codesWithFrequency : M (list Code) :=
  codes' ← get codes;
  assignments' ← get assignments;
  mret (codesWithFrequency codes' assignments').

(** [matrix[a] = matrix[a] ?? {}] *)
Definition ensure_row (a : string) (matrix : JsObject (JsObject nat))
  : JsObject (JsObject nat) :=
  obj_set a (default [] (obj_get a matrix)) matrix.

(** [matrix[a][b] = (matrix[a][b] ?? 0) + 1], writing into the object that
    [matrix[a]] holds. *)
Definition increment (a b : string) (matrix : JsObject (JsObject nat))
  : JsObject (JsObject nat) :=
  let row := default [] (obj_get a matrix) in
  obj_set a (obj_set b (default 0 (obj_get b row) + 1) row) matrix.

(** The body of the two nested loops of [cooccurrence], for one pair. *)
Definition cooccurrence_step (a b : string) (matrix : JsObject (JsObject nat))
  : JsObject (JsObject nat) :=
  let matrix := ensure_row a matrix in
  let matrix := ensure_row b matrix in
  let matrix := increment a b matrix in
  let matrix := increment b a matrix in
  matrix.

(** The loops [for (i = 0; i < length; i++)] and
    [for (j = i + 1; j < length; j++)] over one row's codes. Both indices stay
    below the length, so the [None] branch is never taken. *)
Definition cooccurrence_row (codesForRow : list string)
  (matrix : JsObject (JsObject nat)) : JsObject (JsObject nat) :=
  fold_left
    (λ matrix i,
       fold_left
         (λ matrix j,
            match codesForRow !! i, codesForRow !! j with
            | Some a, Some b => cooccurrence_step a b matrix
            | _, _ => matrix
            end)
         (seq (i + 1) (length codesForRow - (i + 1))) matrix)
    (seq 0 (length codesForRow)) matrix.

Definition cooccurrence (assignmentsByRow' : JsObject (list string))
  : JsObject (JsObject nat) :=
  fold_left (λ matrix codesForRow, cooccurrence_row codesForRow matrix)
    (obj_values assignmentsByRow') [].

Record Saturation : Type := {
  totalCodes : nat;
  recentNewCodes : nat;
  trend : string;
}.

(** [array.slice(-n)] *)
Definition slice_last {A} (n : nat) (l : list A) : list A :=
  drop (length l - n) l.

Definition saturation (codes' : list Code) (events : list CodingEvent)
  : Saturation :=
  let totalCodes := length codes' in
  let recentEvents := slice_last 50 events in
  let recentNewCodes :=
    length (filter (λ e, event_action e = Create) recentEvents) in
  let trend :=
    if decide (recentNewCodes ≤ 2) then "Approaching saturation"
    else "Exploring" in
  {| totalCodes := totalCodes; recentNewCodes := recentNewCodes;
     trend := trend |}.

(** ** Mutation functions *)

Definition logEvent (event : EventInput) : M unit :=
  timestamp ← new_Date;
  codingEvents_update (λ events,
    events ++ [{| event_timestamp := timestamp;
                  event_action := ei_action event;
                  event_codeId := ei_codeId event;
                  event_dataPointIds := ei_dataPointIds event;
                  event_coder := ei_coder event;
                  event_notes := ei_notes event |}]).

Definition createCode (partial : PartialCode) : M Code :=
  id ← createId "code";
  list ← get codes;
  createdAt ← new_Date;
  let code :=
    {| code_id := id;
       code_name := default "New Code" (partial_name partial);
       code_description := default EmptyString (partial_description partial);
       code_color := default (toColor (length list)) (partial_color partial);
       code_parentId := partial_parentId partial;
       code_level := default Level1 (partial_level partial);
       code_createdAt := createdAt;
       code_createdBy := partial_createdBy partial;
       code_frequency := 0;
       code_antActorType := partial_antActorType partial |} in
  codes_update (λ list, list ++ [code]);;
  logEvent {| ei_action := Create; ei_codeId := code_id code;
              ei_dataPointIds := []; ei_coder := None; ei_notes := None |};;
  mret code.

Definition applyCode (codeId : string) (rowIds : list RowID) : M unit :=
  if decide (length rowIds = 0) then mret tt
  else
    assignments_update (λ current,
      let existing := set_new (default [] (obj_get codeId current)) in
      let existing := fold_left set_add rowIds existing in
      obj_set codeId (array_from existing) current);;
    logEvent {| ei_action := Apply; ei_codeId := codeId;
                ei_dataPointIds := rowIds; ei_coder := None;
                ei_notes := None |}.

Definition removeCode (codeId : string) (rowIds : list RowID) : M unit :=
  if decide (length rowIds = 0) then mret tt
  else
    assignments_update (λ current,
      let existing := set_new (default [] (obj_get codeId current)) in
      let existing := fold_left set_delete rowIds existing in
      obj_set codeId (array_from existing) current);;
    logEvent {| ei_action := Remove; ei_codeId := codeId;
                ei_dataPointIds := rowIds; ei_coder := None;
                ei_notes := None |}.

Definition createMemo (memo : MemoInput) : M Memo :=
  id ← createId "memo";
  createdAt ← new_Date;
  let newMemo :=
    {| memo_id := id;
       memo_content := mi_content memo;
       memo_linkedCodes := mi_linkedCodes memo;
       memo_linkedDataPoints := mi_linkedDataPoints memo;
       memo_memoType := mi_memoType memo;
       memo_createdAt := createdAt;
       memo_tags := mi_tags memo |} in
  memos_update (λ list, newMemo :: list);;
  mret newMemo.

Definition createRelation (relation : RelationInput) : M CodeRelation :=
  id ← createId "relation";
  let newRelation :=
    {| relation_id := id;
       relation_fromCode := ri_fromCode relation;
       relation_toCode := ri_toCode relation;
       relation_relationType := ri_relationType relation;
       relation_strength := ri_strength relation;
       relation_notes := ri_notes relation |} in
  relations_update (λ list, list ++ [newRelation]);;
  mret newRelation.

Definition addActor (actor : ActorInput) : M Actor :=
  id ← createId "actor";
  let newActor :=
    {| actor_id := id;
       actor_name := ai_name actor;
       actor_actorType := ai_actorType actor;
       actor_role := ai_role actor;
       actor_description := ai_description actor |} in
  actors_update (λ list, list ++ [newActor]);;
  mret newActor.

Definition addActorLink (link : LinkInput) : M ActorLink :=
  id ← createId "actor-link";
  let newLink :=
    {| link_id := id;
       link_fromActor := li_fromActor link;
       link_toActor := li_toActor link;
       link_translationType := li_translationType link;
       link_dataPointIds := li_dataPointIds link;
       link_notes := li_notes link |} in
  actorLinks_update (λ list, list ++ [newLink]);;
  mret newLink.

(** ** REFI-QDA export *)

Definition exportRefiQda : M string :=
  codes' ← get codes;
  memos' ← get memos;
  assignments' ← get assignments;
  let codeXml :=
    join (map (λ code,
      "<Code id=" +:+ dq +:+ code_id code +:+ dq
      +:+ " name=" +:+ dq +:+ code_name code +:+ dq
      +:+ " color=" +:+ dq +:+ code_color code +:+ dq
      +:+ " level=" +:+ dq +:+ String_CodeLevel (code_level code) +:+ dq
      +:+ " parentId=" +:+ dq +:+ default EmptyString (code_parentId code)
      +:+ dq +:+ "></Code>") codes') in
  let memoXml :=
    join (map (λ memo,
      "<Memo id=" +:+ dq +:+ memo_id memo +:+ dq
      +:+ " type=" +:+ dq +:+ String_MemoType (memo_memoType memo) +:+ dq
      +:+ " createdAt=" +:+ dq +:+ toISOString (memo_createdAt memo) +:+ dq
      +:+ "><Content>" +:+ memo_content memo +:+ "</Content></Memo>")
      memos') in
  let codingXml :=
    join (mbind (M := list) (λ '(codeId, rows),
      map (λ rowId,
        "<Coding codeId=" +:+ dq +:+ codeId +:+ dq
        +:+ " dataPointId=" +:+ dq +:+ String_RowID rowId +:+ dq
        +:+ "></Coding>") rows) (obj_entries assignments')) in
  mret ("<?xml version=" +:+ dq +:+ "1.0" +:+ dq +:+ " encoding=" +:+ dq
        +:+ "UTF-8" +:+ dq +:+ "?><Project>" +:+ codeXml
        +:+ memoXml +:+ codingXml +:+ "</Project>").

(** ** The mutation API as a type of calls *)

Inductive MutationCall : Type :=
  | CallCreateCode (partial : PartialCode)
  | CallApplyCode (codeId : string) (rowIds : list RowID)
  | CallRemoveCode (codeId : string) (rowIds : list RowID)
  | CallCreateMemo (memo : MemoInput)
  | CallCreateRelation (relation : RelationInput)
  | CallAddActor (actor : ActorInput)
  | CallAddActorLink (link : LinkInput).

(** The effect of a call on the world, its return value dropped. *)
Definition perform (call : MutationCall) (w : World) : World :=
  match call with
  | CallCreateCode partial => (createCode partial w).2
  | CallApplyCode codeId rowIds => (applyCode codeId rowIds w).2
  | CallRemoveCode codeId rowIds => (removeCode codeId rowIds w).2
  | CallCreateMemo memo => (createMemo memo w).2
  | CallCreateRelation relation => (createRelation relation w).2
  | CallAddActor actor => (addActor actor w).2
  | CallAddActorLink link => (addActorLink link w).2
  end.

(** Worlds reached from a fresh store through the mutation API. *)
Inductive reachable : World → Prop :=
  | reachable_fresh w : store w = empty_store → reachable w
  | reachable_perform call w : reachable w → reachable (perform call w).

(** ** Vocabulary of the properties *)

(** [assignments[codeId] ?? []] *)
Definition rows_of (assignments' : JsObject (list RowID)) (codeId : string)
  : list RowID :=
  default [] (obj_get codeId assignments').




(** [matrix[a][b]], with [None] when [matrix[a]] or the entry is missing. *)
Definition matrix_get (matrix : JsObject (JsObject nat)) (a b : string)
  : option nat :=
  match obj_get a matrix with
  | Some row => obj_get b row
  | None => None
  end.








(** The create events of a list. *)
Definition create_events (events : list CodingEvent) : list CodingEvent :=
  filter (λ e, event_action e = Create) events.


(** What the mutation functions write into the log: a create event carries
    no row, an apply or remove event carries at least one, and no other
    action is logged. *)
Definition logged_by_api (event : CodingEvent) : Prop :=
  match event_action event with
  | Create => event_dataPointIds event = []
  | Apply | Remove => event_dataPointIds event ≠ []
  | Merge | Split => False
  end.


(** ** The code hierarchy of the panel
    (packages/viewer/src/views/QualitativePanel.svelte) *)

(** [array.flatMap(callback)] for a callback that may not return. *)
Fixpoint flatMap_opt {A B} (callback : A → option (list B)) (l : list A)
  : option (list B) :=
  match l with
  | [] => Some []
  | x :: l' =>
      match callback x with
      | None => None
      | Some items =>
          match flatMap_opt callback l' with
          | None => None
          | Some rest => Some (items ++ rest)
          end
      end
  end.

(** [flatCodes(codes, parentId, depth)], with [parentId = None] for [null].
    The recursion follows parent links and need not end; [fuel] bounds its
    depth, and [None] stands for a call that does not return. *)
Fixpoint flatCodes (fuel : nat) (codes' : list Code)
  (parentId : option string) (depth : nat) : option (list (Code * nat)) :=
  match fuel with
  | 0 => None
  | S fuel' =>
      flatMap_opt
        (λ code,
           match flatCodes fuel' codes' (Some (code_id code)) (depth + 1) with
           | None => None
           | Some items => Some ((code, depth) :: items)
           end)
        (filter (λ code, code_parentId code = parentId) codes')
  end.

(** [x] is the ancestor of [code] found by following [n] parent links
    through the registry. *)
Inductive ancestor_at (codes' : list Code) : Code → Code → nat → Prop :=
  | ancestor_self code : ancestor_at codes' code code 0
  | ancestor_step code parent x n :
      parent ∈ codes' →
      code_parentId code = Some (code_id parent) →
      ancestor_at codes' parent x n →
      ancestor_at codes' code x (S n).

(** [code] has [d] ancestors, the last without a parent. *)
Definition level (codes' : list Code) (code : Code) (d : nat) : Prop :=
  ∃ root, ancestor_at codes' code root d ∧ code_parentId root = None.

(** The calls of [flatCodes] that [flatCodes(codes)] leads to: the first
    one, or one for the children of a code at the level above. *)
Definition hierarchy_call (codes' : list Code) (parentId : option string)
  (depth : nat) : Prop :=
  match parentId with
  | None => depth = 0
  | Some id =>
      ∃ parent, parent ∈ codes' ∧ id = code_id parent ∧
                level codes' parent (depth - 1) ∧ 1 ≤ depth
  end.

(** The chain of codes the recursion of [flatCodes] has gone down, innermost
    first: each code names the next as its parent, the last has none. *)
Fixpoint descent (path : list Code) : Prop :=
  match path with
  | [] => True
  | code :: above =>
      code_parentId code = code_id <$> head above ∧ descent above
  end.

End Store.

(** ** The export scenario: one code, no memo, one assignment *)

Definition xml_declaration : string :=
  "<?xml version=" +:+ dq +:+ "1.0" +:+ dq
  +:+ " encoding=" +:+ dq +:+ "UTF-8" +:+ dq +:+ "?>".

Definition scenario_project : string :=
  "<Project><Code id=" +:+ dq +:+ "code-1" +:+ dq
  +:+ " name=" +:+ dq +:+ "X" +:+ dq
  +:+ " color=" +:+ dq +:+ "#fff" +:+ dq
  +:+ " level=" +:+ dq +:+ "1" +:+ dq
  +:+ " parentId=" +:+ dq +:+ dq
  +:+ "></Code><Coding codeId=" +:+ dq +:+ "code-1" +:+ dq
  +:+ " dataPointId=" +:+ dq +:+ "0" +:+ dq
  +:+ "></Coding></Project>".

(** The characters an XML writer has to escape: ampersand, angle brackets,
    double and single quote. *)
Definition xml_reserved (a : ascii) : bool :=
  bool_decide (nat_of_ascii a ∈ [38; 60; 62; 34; 39]).

Fixpoint needs_escaping (s : string) : bool :=
  match s with
  | EmptyString => false
  | String a s' => xml_reserved a || needs_escaping s'
  end.

(** ** A concrete host for examples

    Row identifiers are integers or strings, as [String] prints them; a date
    is represented by its ISO-8601 text. *)

Inductive SampleRowID : Type :=
  | RowNumber (n : Z)
  | RowString (s : string).

#[global] Instance SampleRowID_eq_dec : EqDecision SampleRowID.
Proof. solve_decision. Defined.

Definition String_SampleRowID (r : SampleRowID) : string :=
  match r with
  | RowNumber n => NilZero.string_of_int (Z.to_int n)
  | RowString s => s
  end.

Definition sample_host : Host :=
  {| RowID := SampleRowID;
     String_RowID := String_SampleRowID;
     Date := string;
     toISOString := λ d, d;
     number := Z |}.

Section Sample.
#[local] Existing Instance sample_host.

Definition sample_world (s : @Store sample_host) : @World sample_host :=
  {| store := s;
     entropy := λ n, NilZero.string_of_uint (Nat.to_uint n);
     ids_drawn := 0;
     clock := λ n, "2025-01-01T00:00:00.000Z";
     dates_read := 0 |}.

Definition no_partial : @PartialCode sample_host :=
  {| partial_id := None; partial_name := None; partial_description := None;
     partial_color := None; partial_parentId := None; partial_level := None;
     partial_createdAt := None; partial_createdBy := None;
     partial_frequency := None; partial_antActorType := None |}.

Definition sample_code (id name color : string) : @Code sample_host :=
  {| code_id := id; code_name := name; code_description := EmptyString;
     code_color := color; code_parentId := None; code_level := Level1;
     code_createdAt := "2025-01-01T00:00:00.000Z"; code_createdBy := None;
     code_frequency := 0; code_antActorType := None |}.

Definition sample_event (action : Action) (codeId : string)
  : @CodingEvent sample_host :=
  {| event_timestamp := "2025-01-01T00:00:00.000Z"; event_action := action;
     event_codeId := codeId; event_dataPointIds := [];
     event_coder := None; event_notes := None |}.

Definition sample_store (codes' : list (@Code sample_host))
  (assignments' : JsObject (list SampleRowID)) : @Store sample_host :=
  {| codes := codes'; memos := []; relations := []; actors := [];
     actorLinks := []; temporalCodes := []; assignments := assignments';
     codingEvents := [] |}.



Definition coded_store : @Store sample_host :=
  sample_store [sample_code "code-A" "Theme A" "#2563eb"]
    [("code-A", [RowNumber 1; RowNumber 2; RowNumber 3])].

Definition three_creates : list (@CodingEvent sample_host) :=
  [sample_event Create "code-A"; sample_event Apply "code-A";
   sample_event Create "code-B"; sample_event Create "code-C"].

Definition named (name : string) : @PartialCode sample_host :=
  {| partial_id := None; partial_name := Some name;
     partial_description := None; partial_color := None;
     partial_parentId := None; partial_level := None;
     partial_createdAt := None; partial_createdBy := None;
     partial_frequency := None; partial_antActorType := None |}.

(** [createCode({name: "Theme A"})], then the new code applied to rows 1, 2
    and 3. *)
Definition theme_applied : @World sample_host :=
  ((code ← createCode (named "Theme A");
    applyCode (code_id code) [RowNumber 1; RowNumber 2; RowNumber 3])
     (sample_world empty_store)).2.

(** ... then removed from row 2. *)
Definition theme_removed : @World sample_host :=
  (removeCode "code-0" [RowNumber 2] theme_applied).2.

(** Two codes applied to row 7 ... *)
Definition pair_on_7 : @World sample_host :=
  ((applyCode "code-A" [RowNumber 7];; applyCode "code-B" [RowNumber 7])
     (sample_world empty_store)).2.

(** ... and then to row 8. *)
Definition pair_on_7_and_8 : @World sample_host :=
  ((applyCode "code-A" [RowNumber 8];; applyCode "code-B" [RowNumber 8])
     pair_on_7).2.

Definition child_code (id name parent : string) : @Code sample_host :=
  {| code_id := id; code_name := name; code_description := EmptyString;
     code_color := "#16a34a"; code_parentId := Some parent;
     code_level := Level2;
     code_createdAt := "2025-01-01T00:00:00.000Z"; code_createdBy := None;
     code_frequency := 0; code_antActorType := None |}.

(** A root with a child and a grandchild, a code whose parent does not
    exist, and a second root. *)
Definition sample_hierarchy : list (@Code sample_host) :=
  [sample_code "code-A" "A" "#2563eb";
   child_code "code-B" "B" "code-A";
   child_code "code-C" "C" "code-B";
   child_code "code-D" "D" "code-Z";
   sample_code "code-E" "E" "#f97316"].

(** Two codes with the same identifier, the second naming it as parent. *)
Definition looping_codes : list (@Code sample_host) :=
  [sample_code "code-A" "A" "#2563eb"; child_code "code-A" "A too" "code-A"].

(** A fresh store driven through three calls of the API. *)
Definition driven_world : @World sample_host :=
  perform (CallRemoveCode "code-0" [RowNumber 2])
    (perform (CallApplyCode "code-0" [RowNumber 1; RowNumber 2; RowNumber 3])
       (perform (CallCreateCode (named "Theme A"))
          (sample_world empty_store))).


Definition scenario_store : @Store sample_host :=
  sample_store [sample_code "code-1" "X" "#fff"]
    [("code-1", [RowString "0"])].

End Sample.

(** * Properties *)

(** ** Facts about objects *)

Section JsObjectFacts.
Context {V : Type}.
Implicit Types (k : string) (v : V) (o : JsObject V).

Lemma obj_get_app k o1 o2 :
  obj_get k (o1 ++ o2) = from_option Some (obj_get k o2) (obj_get k o1).
Proof.
  induction o1 as [|[k' v'] o1 IH]; simpl; [done|].
  by destruct (decide (k' = k)).
Qed.

Lemma obj_get_None k o : obj_get k o = None ↔ k ∉ obj_keys o.
Proof.
  unfold obj_keys. induction o as [|[k' v'] o IH]; simpl.
  - split; [intros _; apply not_elem_of_nil | done].
  - rewrite not_elem_of_cons, <- IH.
    destruct (decide (k' = k)); [|by intuition]. split; [done|]. by intros [].
Qed.



Lemma obj_insert_index_split n k v o :
  ∃ o1 o2, o = o1 ++ o2 ∧ obj_insert_index n k v o = o1 ++ (k, v) :: o2.
Proof.
  induction o as [|[k' v'] o (o1 & o2 & Ho & Hi)]; simpl.
  - by exists [], [].
  - destruct (array_index k') as [n'|]; [|by exists [], ((k', v') :: o)].
    case_bool_decide; [|by exists [], ((k', v') :: o)].
    exists ((k', v') :: o1), o2. rewrite Hi. by rewrite Ho at 1.
Qed.

Lemma obj_set_fresh k v o :
  obj_get k o = None →
  ∃ o1 o2, o = o1 ++ o2 ∧ obj_set k v o = o1 ++ (k, v) :: o2.
Proof.
  intros Hg. unfold obj_set. rewrite Hg.
  destruct (array_index k) as [n|]; [apply obj_insert_index_split|].
  exists o, []. by rewrite app_nil_r.
Qed.

Lemma obj_set_present k v v0 o :
  obj_get k o = Some v0 →
  ∃ o1 o2, o = o1 ++ (k, v0) :: o2 ∧ obj_get k o1 = None ∧
           obj_set k v o = o1 ++ (k, v) :: o2.
Proof.
  intros Hg. unfold obj_set. rewrite Hg. clear -Hg.
  induction o as [|[k' v'] o IH]; simpl in *; [done|].
  destruct (decide (k' = k)) as [->|Hne].
  - injection Hg as ->. by exists [], o.
  - destruct (IH Hg) as (o1 & o2 & Ho & Hn & Hr).
    exists ((k', v') :: o1), o2. simpl.
    rewrite decide_False by done. rewrite Hr. by rewrite Ho at 1.
Qed.

Lemma obj_get_set_eq k v o : obj_get k (obj_set k v o) = Some v.
Proof.
  destruct (obj_get k o) as [v0|] eqn:Hg.
  - destruct (obj_set_present k v v0 o Hg) as (o1 & o2 & _ & Hn & ->).
    rewrite obj_get_app, Hn. simpl. by rewrite decide_True.
  - destruct (obj_set_fresh k v o Hg) as (o1 & o2 & -> & ->).
    rewrite obj_get_app in Hg |- *.
    destruct (obj_get k o1); [done|]. simpl. by rewrite decide_True.
Qed.

Lemma obj_get_set_ne k k' v o :
  k ≠ k' → obj_get k' (obj_set k v o) = obj_get k' o.
Proof.
  intros Hne. destruct (obj_get k o) as [v0|] eqn:Hg.
  - destruct (obj_set_present k v v0 o Hg) as (o1 & o2 & -> & _ & ->).
    rewrite !obj_get_app. simpl. by rewrite !decide_False.
  - destruct (obj_set_fresh k v o Hg) as (o1 & o2 & -> & ->).
    rewrite !obj_get_app. simpl. by rewrite decide_False.
Qed.

Lemma obj_get_set k k' v o :
  obj_get k' (obj_set k v o) = if decide (k = k') then Some v else obj_get k' o.
Proof.
  case_decide as Hk; [subst; apply obj_get_set_eq | by apply obj_get_set_ne].
Qed.

Lemma obj_keys_set_present k v o :
  is_Some (obj_get k o) → obj_keys (obj_set k v o) = obj_keys o.
Proof.
  intros [v0 Hg].
  destruct (obj_set_present k v v0 o Hg) as (o1 & o2 & Ho & _ & ->).
  rewrite Ho. unfold obj_keys. by rewrite !fmap_app.
Qed.

Lemma obj_keys_set_fresh k v o :
  obj_get k o = None → obj_keys (obj_set k v o) ≡ₚ k :: obj_keys o.
Proof.
  intros Hg. destruct (obj_set_fresh k v o Hg) as (o1 & o2 & -> & ->).
  unfold obj_keys. rewrite !fmap_app. simpl.
  by rewrite Permutation_middle.
Qed.

Lemma obj_keys_set_NoDup k v o :
  NoDup (obj_keys o) → NoDup (obj_keys (obj_set k v o)).
Proof.
  intros Hnd. destruct (obj_get k o) as [v0|] eqn:Hg.
  - by rewrite obj_keys_set_present.
  - rewrite obj_keys_set_fresh by done.
    apply NoDup_cons. split; [by apply obj_get_None | done].
Qed.


End JsObjectFacts.

Lemma obj_replace_fresh {V} (k : string) (v v' : V) (o1 o2 : JsObject V) :
  obj_get k o1 = None →
  obj_replace k v (o1 ++ (k, v') :: o2) = o1 ++ (k, v) :: o2.
Proof.
  induction o1 as [|[k1 v1] o1 IH]; simpl.
  - intros _. by rewrite decide_True.
  - destruct (decide (k1 = k)); [done|]. intros Hg. by rewrite IH.
Qed.

(** Writing a key twice in a row leaves what the second write alone leaves. *)
Lemma obj_set_set {V} (k : string) (v v' : V) (o : JsObject V) :
  obj_set k v (obj_set k v' o) = obj_set k v o.
Proof.
  unfold obj_set at 1. rewrite obj_get_set_eq.
  destruct (obj_get k o) as [v0|] eqn:Hg.
  - destruct (obj_set_present k v' v0 o Hg) as (o1 & o2 & Ho & Hn & ->).
    rewrite obj_replace_fresh by done.
    unfold obj_set. rewrite Hg, Ho. by rewrite obj_replace_fresh.
  - unfold obj_set. rewrite Hg. destruct (array_index k) as [n|].
    + clear -Hg. induction o as [|[k1 v1] o IH]; simpl in *.
      * by rewrite decide_True.
      * destruct (decide (k1 = k)); [done|].
        destruct (array_index k1) as [n1|]; simpl.
        -- case_bool_decide; simpl.
           ++ rewrite decide_False by done. by rewrite IH.
           ++ by rewrite decide_True.
        -- by rewrite decide_True.
    + by apply obj_replace_fresh.
Qed.

(** ** Facts about sets *)

Section JsSetFacts.
Context {A : Type} `{!EqDecision A}.
Implicit Types (s l : list A) (x y : A).

Lemma elem_of_set_add s x y : y ∈ set_add s x ↔ y ∈ s ∨ y = x.
Proof.
  unfold set_add. case_decide.
  - split; [by left|]. intros [Hy|Hy]; [done|by subst].
  - rewrite elem_of_app, list_elem_of_singleton. done.
Qed.

Lemma NoDup_set_add s x : NoDup s → NoDup (set_add s x).
Proof.
  intros Hs. unfold set_add. case_decide; [done|].
  apply NoDup_app. split_and!; [done| |apply NoDup_singleton].
  intros y Hy ->%list_elem_of_singleton. done.
Qed.


Lemma elem_of_fold_set_add l s y :
  y ∈ fold_left set_add l s ↔ y ∈ s ∨ y ∈ l.
Proof.
  revert s. induction l as [|x l IH]; intros s; simpl.
  - rewrite elem_of_nil. tauto.
  - rewrite IH, elem_of_set_add, elem_of_cons. tauto.
Qed.

Lemma NoDup_fold_set_add l s : NoDup s → NoDup (fold_left set_add l s).
Proof.
  revert s. induction l as [|x l IH]; intros s Hs; simpl; [done|].
  by apply IH, NoDup_set_add.
Qed.

Lemma elem_of_set_new l y : y ∈ set_new l ↔ y ∈ l.
Proof.
  unfold set_new. rewrite elem_of_fold_set_add, elem_of_nil. tauto.
Qed.

Lemma NoDup_set_new l : NoDup (set_new l).
Proof. apply NoDup_fold_set_add, NoDup_nil_2. Qed.

Lemma fold_set_add_NoDup l s :
  NoDup (s ++ l) → fold_left set_add l s = s ++ l.
Proof.
  revert s. induction l as [|x l IH]; intros s Hnd; simpl.
  - by rewrite app_nil_r.
  - assert (x ∉ s) as Hx.
    { apply NoDup_app in Hnd as (_ & Hd & _). intros Hin.
      apply (Hd x Hin). left. }
    unfold set_add at 2. rewrite decide_False by done.
    rewrite IH; rewrite <- app_assoc; done.
Qed.

(** A set built from a duplicate-free array lists it unchanged. *)
Lemma set_new_NoDup l : NoDup l → set_new l = l.
Proof. intros Hl. unfold set_new. by rewrite fold_set_add_NoDup. Qed.

Lemma elem_of_set_delete s x y : y ∈ set_delete s x ↔ y ∈ s ∧ y ≠ x.
Proof. unfold set_delete. rewrite list_elem_of_filter. tauto. Qed.

Lemma NoDup_set_delete s x : NoDup s → NoDup (set_delete s x).
Proof. apply NoDup_filter. Qed.

Lemma elem_of_fold_set_delete l s y :
  y ∈ fold_left set_delete l s ↔ y ∈ s ∧ y ∉ l.
Proof.
  revert s. induction l as [|x l IH]; intros s; simpl.
  - split; [intros Hy; split; [done|apply not_elem_of_nil] | tauto].
  - rewrite IH, elem_of_set_delete, not_elem_of_cons. tauto.
Qed.

Lemma NoDup_fold_set_delete l s :
  NoDup s → NoDup (fold_left set_delete l s).
Proof.
  revert s. induction l as [|x l IH]; intros s Hs; simpl; [done|].
  by apply IH, NoDup_set_delete.
Qed.

End JsSetFacts.

(** ** The mutation functions *)

Section MutationFacts.
Context {host : Host}.

Lemma palette_lookup (index : nat) :
  palette !! (index mod length palette) = Some (toColor index).
Proof.
  unfold toColor.
  destruct (lookup_lt_is_Some_2 palette (index mod length palette)) as [c ->];
    [|done].
  apply Nat.mod_upper_bound. simpl. lia.
Qed.

(** C7: with an empty list of rows, [applyCode] and [removeCode] return
    without touching anything: the world after the call, that is every
    writable of the store (assignments, registries, audit log) and the
    sources of identifiers and dates, is the world before it, and the call
    returns normally. *)
Theorem empty_rowIds_noop (codeId : string) (w : World) :
  applyCode codeId [] w = (tt, w) ∧ removeCode codeId [] w = (tt, w).
Proof. split; reflexivity. Qed.

(** C8: [createCode] always returns a code; its name is the given one or
    "New Code", its level the given one or 1, its colour the given one or the
    palette entry at the registry size modulo the palette length. The code
    becomes the last entry of the registry, and one event is appended to the
    log: a "create" for the new identifier with no rows. *)
Theorem createCode_spec (partial : PartialCode) (w : World) :
  let code := (createCode partial w).1 in
  let w' := (createCode partial w).2 in
  code_name code = default "New Code" (partial_name partial) ∧
  code_level code = default Level1 (partial_level partial) ∧
  (∃ entry,
     palette !! (length (codes (store w)) mod length palette) = Some entry ∧
     code_color code = default entry (partial_color partial)) ∧
  codes (store w') = codes (store w) ++ [code] ∧
  (∃ event,
     codingEvents (store w') = codingEvents (store w) ++ [event] ∧
     event_action event = Create ∧
     event_codeId event = code_id code ∧
     event_dataPointIds event = []).
Proof.
  simpl. split_and!; try reflexivity.
  - eexists. split; [apply palette_lookup | reflexivity].
  - eexists. split_and!; reflexivity.
Qed.

(** C9: whatever the call of the mutation API, the log after it is the log
    before it followed by no event or by one event. *)
Theorem codingEvents_append_only (call : MutationCall) (w : World) :
  ∃ new,
    codingEvents (store (perform call w)) = codingEvents (store w) ++ new ∧
    length new ≤ 1.
Proof.
  destruct call as [partial|codeId rowIds|codeId rowIds|memo|rel|actor|link];
    simpl.
  - eexists [_]. split; [reflexivity | simpl; lia].
  - unfold applyCode. case_decide.
    + exists []. simpl. rewrite app_nil_r. split; [done | simpl; lia].
    + eexists [_]. split; [reflexivity | simpl; lia].
  - unfold removeCode. case_decide.
    + exists []. simpl. rewrite app_nil_r. split; [done | simpl; lia].
    + eexists [_]. split; [reflexivity | simpl; lia].
  - exists []. simpl. rewrite app_nil_r. split; [done | simpl; lia].
  - exists []. simpl. rewrite app_nil_r. split; [done | simpl; lia].
  - exists []. simpl. rewrite app_nil_r. split; [done | simpl; lia].
  - exists []. simpl. rewrite app_nil_r. split; [done | simpl; lia].
Qed.

Lemma removeCode_world (codeId : string) (rowIds : list RowID) (w : World) :
  rowIds ≠ [] →
  store (removeCode codeId rowIds w).2 =
    {| codes := codes (store w); memos := memos (store w);
       relations := relations (store w); actors := actors (store w);
       actorLinks := actorLinks (store w);
       temporalCodes := temporalCodes (store w);
       assignments :=
         obj_set (V := list RowID) codeId
           (fold_left set_delete rowIds
              (set_new (rows_of (assignments (store w)) codeId)))
           (assignments (store w));
       codingEvents :=
         codingEvents (store w) ++
           [{| event_timestamp := clock w (dates_read w);
               event_action := Remove; event_codeId := codeId;
               event_dataPointIds := rowIds;
               event_coder := None; event_notes := None |}] |}.
Proof.
  intros Hne. unfold removeCode. rewrite decide_False; [reflexivity|].
  by destruct rowIds.
Qed.

Lemma applyCode_world (codeId : string) (rowIds : list RowID) (w : World) :
  rowIds ≠ [] →
  store (applyCode codeId rowIds w).2 =
    {| codes := codes (store w); memos := memos (store w);
       relations := relations (store w); actors := actors (store w);
       actorLinks := actorLinks (store w);
       temporalCodes := temporalCodes (store w);
       assignments :=
         obj_set (V := list RowID) codeId
           (fold_left set_add rowIds
              (set_new (rows_of (assignments (store w)) codeId)))
           (assignments (store w));
       codingEvents :=
         codingEvents (store w) ++
           [{| event_timestamp := clock w (dates_read w);
               event_action := Apply; event_codeId := codeId;
               event_dataPointIds := rowIds;
               event_coder := None; event_notes := None |}] |}.
Proof.
  intros Hne. unfold applyCode. rewrite decide_False; [reflexivity|].
  by destruct rowIds.
Qed.





End MutationFacts.

(** ** The derived stores and the exporter *)

Section DerivedFacts.
Context {host : Host}.


Lemma slice_last_app {A} (n : nat) (older recent : list A) :
  length recent = n → slice_last n (older ++ recent) = recent.
Proof.
  intros <-. unfold slice_last. rewrite length_app.
  replace (length older + length recent - length recent) with (length older)
    by lia.
  apply drop_app_length.
Qed.

Lemma slice_last_short {A} (n : nat) (l : list A) :
  length l ≤ n → slice_last n l = l.
Proof.
  intros Hl. unfold slice_last.
  by replace (length l - n) with 0 by lia.
Qed.

(** C3: [recent] being the last 50 entries of the log, or the whole log when
    it is shorter, [recentNewCodes] is the number of create events in
    [recent]; the trend is "Approaching saturation" exactly when that number
    is at most 2 and "Exploring" otherwise, so 3 gives "Exploring" and 2
    gives "Approaching saturation". *)
Theorem saturation_spec (codes' : list Code)
  (older recent : list CodingEvent) :
  length recent = 50 ∨ (older = [] ∧ length recent < 50) →
  let result := saturation codes' (older ++ recent) in
  let creates := length (create_events recent) in
  totalCodes result = length codes' ∧
  recentNewCodes result = creates ∧
  (trend result = "Approaching saturation" ↔ recentNewCodes result ≤ 2) ∧
  (trend result = "Exploring" ↔ ¬ recentNewCodes result ≤ 2) ∧
  (creates = 3 → trend result = "Exploring") ∧
  (creates = 2 → trend result = "Approaching saturation").
Proof.
  intros Hrecent.
  assert (slice_last 50 (older ++ recent) = recent) as Hslice.
  { destruct Hrecent as [Hlen|[-> Hlen]].
    - by apply slice_last_app.
    - apply slice_last_short. simpl. lia. }
  cbv zeta. unfold saturation. rewrite Hslice.
  cbn [totalCodes recentNewCodes trend]. fold (create_events recent).
  split_and!; try done.
  - case_decide; split; intros; done || lia.
  - case_decide; split; intros; done || lia.
  - intros ->. done.
  - intros ->. done.
Qed.

(** C4, as the code has it: in a store holding the one code "code-1" (name
    "X", colour "#fff", level 1, no parent), no memo and the assignment of
    "code-1" to the one row printed "0", [exportRefiQda] returns the XML
    declaration followed by the project element of the scenario, and leaves
    the world as it was. *)
Theorem exportRefiQda_scenario (code : Code) (row : RowID) (w : World) :
  code_id code = "code-1" →
  code_name code = "X" →
  code_color code = "#fff" →
  code_level code = Level1 →
  code_parentId code = None →
  String_RowID row = "0" →
  codes (store w) = [code] →
  memos (store w) = [] →
  assignments (store w) = [("code-1", [row])] →
  exportRefiQda w = (xml_declaration +:+ scenario_project, w).
Proof.
  intros Hid Hname Hcolor Hlevel Hparent Hrow Hcodes Hmemos Hassignments.
  unfold exportRefiQda, mbind, M_bind, mret, M_ret, get.
  rewrite Hcodes, Hmemos, Hassignments. cbn [map join String.concat].
  cbn [obj_entries mbind list_bind app map fst snd].
  rewrite Hid, Hname, Hcolor, Hlevel, Hparent, Hrow.
  reflexivity.
Qed.

End DerivedFacts.

(** ** Co-occurrence *)

Section CooccurrenceFacts.
Context {host : Host}.

































End CooccurrenceFacts.

(** ** Worlds reached through the mutation API *)

Section ReachableFacts.
Context {host : Host}.

(** The assignments table never has two entries for a code, nor a row twice
    under a code. *)
Lemma reachable_assignments (w : World) :
  reachable w →
  NoDup (obj_keys (assignments (store w))) ∧
  ∀ codeId rows,
    obj_get codeId (assignments (store w)) = Some rows → NoDup rows.
Proof.
  induction 1 as [w Hfresh|call w Hreach [IHkeys IHrows]].
  - rewrite Hfresh. simpl. split; [apply NoDup_nil_2 | done].
  - destruct call as [partial|codeId rowIds|codeId rowIds|memo|rel|actor|link];
      try (split; [exact IHkeys | exact IHrows]).
    + unfold perform. destruct (decide (rowIds = [])) as [->|Hne]; [done|].
      rewrite applyCode_world by done. cbn [assignments]. split.
      * by apply obj_keys_set_NoDup.
      * intros c rows. rewrite obj_get_set. case_decide; [|by apply IHrows].
        intros [= <-]. apply NoDup_fold_set_add, NoDup_set_new.
    + unfold perform. destruct (decide (rowIds = [])) as [->|Hne]; [done|].
      rewrite removeCode_world by done. cbn [assignments]. split.
      * by apply obj_keys_set_NoDup.
      * intros c rows. rewrite obj_get_set. case_decide; [|by apply IHrows].
        intros [= <-]. apply NoDup_fold_set_delete, NoDup_set_new.
Qed.

End ReachableFacts.

(** ** The properties at concrete inputs *)

Section SampleFacts.
#[local] Existing Instance sample_host.




Lemma saturation_spec_witness :
  (length three_creates = 50 ∨
   (([] : list CodingEvent) = [] ∧ length three_creates < 50)) ∧
  recentNewCodes (saturation [] ([] ++ three_creates)) = 3 ∧
  trend (saturation [] ([] ++ three_creates)) = "Exploring".
Proof.
  assert (length three_creates = 50 ∨
          (([] : list CodingEvent) = [] ∧ length three_creates < 50))
    as Hrecent by (right; split; [reflexivity | vm_compute; lia]).
  destruct (saturation_spec [] [] three_creates Hrecent)
    as (_ & Hcount & _ & _ & Hthree & _).
  split_and!.
  - exact Hrecent.
  - rewrite Hcount. vm_compute. reflexivity.
  - apply Hthree. vm_compute. reflexivity.
Defined.

Lemma exportRefiQda_scenario_witness :
  exportRefiQda (sample_world scenario_store)
  = (xml_declaration +:+ scenario_project, sample_world scenario_store).
Proof.
  apply (exportRefiQda_scenario (sample_code "code-1" "X" "#fff")
           (RowString "0")); reflexivity.
Defined.

(** Where the code leaves C4: the exported text does not start with the
    project element, it starts with the XML declaration. *)
Lemma exportRefiQda_not_bare_project :
  (exportRefiQda (sample_world scenario_store)).1 ≠ scenario_project ∧
  needs_escaping "code-1" = false ∧ needs_escaping "X" = false ∧
  needs_escaping "#fff" = false ∧ needs_escaping "1" = false ∧
  needs_escaping "0" = false.
Proof.
  split_and!; try reflexivity.
  vm_compute. discriminate.
Qed.



(** The scenarios of the specification, run on the model. *)

Example createCode_defaults :
  (createCode no_partial (sample_world empty_store)).1
  = sample_code "code-0" "New Code" "#2563eb".
Proof. vm_compute. reflexivity. Qed.

Example theme_applied_result :
  obj_get "1" (assignmentsByRow (assignments (store theme_applied)))
    = Some ["code-0"] ∧
  code_frequency <$> (read_codesWithFrequency theme_applied).1 = [3].
Proof. split; vm_compute; reflexivity. Qed.

Example theme_removed_result :
  obj_get "2" (assignmentsByRow (assignments (store theme_removed))) = None ∧
  code_frequency <$> (read_codesWithFrequency theme_removed).1 = [2].
Proof. split; vm_compute; reflexivity. Qed.

Example pair_on_7_result :
  let matrix := cooccurrence (assignmentsByRow (assignments (store pair_on_7))) in
  matrix_get matrix "code-A" "code-B" = Some 1 ∧
  matrix_get matrix "code-B" "code-A" = Some 1.
Proof. split; vm_compute; reflexivity. Qed.

Example pair_on_7_and_8_result :
  let matrix :=
    cooccurrence (assignmentsByRow (assignments (store pair_on_7_and_8))) in
  matrix_get matrix "code-A" "code-B" = Some 2 ∧
  matrix_get matrix "code-B" "code-A" = Some 2.
Proof. split; vm_compute; reflexivity. Qed.

(** Array-index keys come first, in numeric order, whenever they are
    created. *)
Example obj_set_order :
  obj_keys (obj_set "2" 1 (obj_set "b" 2 (obj_set "10" 3 (obj_set "a" 4 []))))
  = ["2"; "10"; "a"; "b"].
Proof. vm_compute. reflexivity. Qed.

End SampleFacts.

(** * Further properties of the store *)

(** ** More about sets *)

Section JsSetMore.
Context {A : Type} `{!EqDecision A}.
Implicit Types (s l : list A) (x y : A).

(** Adding to a set keeps what it lists, in place, and appends. *)
Lemma fold_set_add_app l s :
  ∃ added, fold_left set_add l s = s ++ added.
Proof.
  revert s. induction l as [|x l IH]; intros s; simpl.
  - exists []. by rewrite app_nil_r.
  - destruct (IH (set_add s x)) as [added ->]. unfold set_add.
    case_decide; [by exists added|].
    exists (x :: added). by rewrite <- app_assoc.
Qed.

Lemma filter_not_elem_of_id l s :
  (∀ y, y ∈ s → y ∉ l) → filter (λ y, y ∉ l) s = s.
Proof.
  intros Hdisj. induction s as [|y s IH]; [done|].
  rewrite filter_cons_True by (apply Hdisj; left).
  rewrite IH; [done|]. intros z Hz. apply Hdisj. by right.
Qed.

Lemma fold_set_delete_filter l s :
  fold_left set_delete l s = filter (λ y, y ∉ l) s.
Proof.
  revert s. induction l as [|x l IH]; intros s; simpl.
  - symmetry. apply filter_not_elem_of_id. intros y _. apply not_elem_of_nil.
  - rewrite IH. unfold set_delete. rewrite list_filter_filter.
    apply list_filter_iff. intros y. rewrite not_elem_of_cons. tauto.
Qed.


End JsSetMore.

(** ** More about the mutation functions *)

Section MutationMore.
Context {host : Host}.



(** Removing the same rows a second time changes nothing in the assignments
    table. *)
Theorem removeCode_idempotent (codeId : string) (rowIds : list RowID)
  (w : World) :
  let w1 := (removeCode codeId rowIds w).2 in
  let w2 := (removeCode codeId rowIds w1).2 in
  assignments (store w2) = assignments (store w1).
Proof.
  cbv zeta. destruct (decide (rowIds = [])) as [->|Hne]; [done|].
  rewrite !removeCode_world by done. cbn [assignments].
  unfold rows_of at 1. rewrite obj_get_set_eq. cbn [default from_option id].
  rewrite obj_set_set. f_equal.
  rewrite set_new_NoDup by apply NoDup_fold_set_delete, NoDup_set_new.
  rewrite fold_set_delete_filter. apply filter_not_elem_of_id.
  intros y Hy. by apply elem_of_fold_set_delete in Hy as [_ Hy].
Qed.

Lemma length_set_new (l : list RowID) : length (set_new l) ≤ length l.
Proof.
  apply submseteq_length, NoDup_submseteq; [apply NoDup_set_new|].
  intros x. by rewrite elem_of_set_new.
Qed.

Lemma codesWithFrequency_Forall2 (R : nat → nat → Prop) (codes' : list Code)
  (after before : JsObject (list RowID)) :
  (∀ codeId, R (length (rows_of after codeId)) (length (rows_of before codeId))) →
  Forall2 (λ c1 c2, R (code_frequency c1) (code_frequency c2))
    (codesWithFrequency codes' after) (codesWithFrequency codes' before).
Proof.
  intros HR. unfold codesWithFrequency.
  induction codes' as [|code codes' IH]; simpl; [constructor|].
  constructor; [apply HR | apply IH].
Qed.

(** [removeCode] never raises a frequency: entry by entry, the frequencies
    read after the call are at most those read before it. *)
Theorem removeCode_frequency (codeId : string) (rowIds : list RowID)
  (w : World) :
  let w' := (removeCode codeId rowIds w).2 in
  Forall2 (λ after before, code_frequency after ≤ code_frequency before)
    (read_codesWithFrequency w').1 (read_codesWithFrequency w).1.
Proof.
  cbv zeta. unfold read_codesWithFrequency, mbind, M_bind, mret, M_ret, get.
  cbn [fst].
  destruct (decide (rowIds = [])) as [->|Hne].
  - apply codesWithFrequency_Forall2. done.
  - rewrite removeCode_world by done. cbn [codes assignments].
    apply codesWithFrequency_Forall2. intros c. unfold rows_of at 1.
    rewrite obj_get_set. case_decide as Hc; [|done]. subst c.
    cbn [default from_option id]. rewrite fold_set_delete_filter.
    etrans; [apply length_filter|]. apply length_set_new.
Qed.

(** [applyCode] never lowers a frequency, provided the code lists no row
    twice. *)
Theorem applyCode_frequency (codeId : string) (rowIds : list RowID)
  (w : World) :
  NoDup (rows_of (assignments (store w)) codeId) →
  let w' := (applyCode codeId rowIds w).2 in
  Forall2 (λ after before, code_frequency before ≤ code_frequency after)
    (read_codesWithFrequency w').1 (read_codesWithFrequency w).1.
Proof.
  intros Hnd. cbv zeta.
  unfold read_codesWithFrequency, mbind, M_bind, mret, M_ret, get.
  cbn [fst].
  destruct (decide (rowIds = [])) as [->|Hne].
  - apply (codesWithFrequency_Forall2 (λ a b, b ≤ a)). done.
  - rewrite applyCode_world by done. cbn [codes assignments].
    apply (codesWithFrequency_Forall2 (λ a b, b ≤ a)). intros c. cbv beta. unfold rows_of at 2.
    rewrite obj_get_set. case_decide as Hc; [|done]. subst c.
    cbn [default from_option id]. rewrite set_new_NoDup by done.
    destruct (fold_set_add_app rowIds (rows_of (assignments (store w)) codeId))
      as [added ->].
    rewrite length_app. lia.
Qed.

(** Nothing is ever deleted: whatever the call, the codes, relations, actors
    and links registered before are the first entries of their registry
    afterwards, the memos the last entries of theirs, the temporal codes are
    untouched, and every code that had an entry in the assignments table
    still has one. *)
Theorem perform_keeps_entries (call : MutationCall) (w : World) :
  let s := store w in
  let s' := store (perform call w) in
  codes s `prefix_of` codes s' ∧
  memos s `suffix_of` memos s' ∧
  relations s `prefix_of` relations s' ∧
  actors s `prefix_of` actors s' ∧
  actorLinks s `prefix_of` actorLinks s' ∧
  temporalCodes s' = temporalCodes s ∧
  (∀ codeId, is_Some (obj_get codeId (assignments s)) →
             is_Some (obj_get codeId (assignments s'))).
Proof.
  cbv zeta.
  destruct call as [partial|codeId rowIds|codeId rowIds|memo|rel|actor|link];
    unfold perform.
  - simpl. split_and!; try done. by eexists.
  - destruct (decide (rowIds = [])) as [->|Hne]; [by split_and!|].
    rewrite applyCode_world by done. simpl. split_and!; try done.
    intros c Hc. rewrite obj_get_set. by case_decide.
  - destruct (decide (rowIds = [])) as [->|Hne]; [by split_and!|].
    rewrite removeCode_world by done. simpl. split_and!; try done.
    intros c Hc. rewrite obj_get_set. by case_decide.
  - simpl. split_and!; try done. by eexists [_].
  - simpl. split_and!; try done. by eexists.
  - simpl. split_and!; try done. by eexists.
  - simpl. split_and!; try done. by eexists.
Qed.


(** Relations, actors and links never reach the export. *)
Theorem exportRefiQda_ignores_registries (relation : RelationInput)
  (actor : ActorInput) (link : LinkInput) (w : World) :
  (exportRefiQda (createRelation relation w).2).1 = (exportRefiQda w).1 ∧
  (exportRefiQda (addActor actor w).2).1 = (exportRefiQda w).1 ∧
  (exportRefiQda (addActorLink link w).2).1 = (exportRefiQda w).1.
Proof. by split_and!. Qed.

Lemma export_skip_empty (codeId : string) (o1 o2 : JsObject (list RowID))
  (element : string → RowID → string) :
  (o1 ++ (codeId, []) :: o2) ≫= (λ '(c, rows), map (element c) rows)
  = (o1 ++ o2) ≫= (λ '(c, rows), map (element c) rows).
Proof. by rewrite !bind_app. Qed.

(** The empty entry that [removeCode] leaves for a code that had none adds
    nothing to the export. *)
Theorem exportRefiQda_after_removeCode_absent (codeId : string)
  (rowIds : list RowID) (w : World) :
  obj_get codeId (assignments (store w)) = None →
  (exportRefiQda (removeCode codeId rowIds w).2).1 = (exportRefiQda w).1.
Proof.
  intros Hnone. destruct (decide (rowIds = [])) as [->|Hne]; [done|].
  unfold exportRefiQda, mbind at 1 2 3 5 6 7, M_bind, mret, M_ret, get.
  cbn [fst]. rewrite removeCode_world by done. cbn [codes memos assignments].
  assert (fold_left set_delete rowIds
            (set_new (rows_of (assignments (store w)) codeId)) = []) as ->.
  { unfold rows_of. rewrite Hnone. rewrite fold_set_delete_filter. done. }
  destruct (obj_set_fresh codeId [] _ Hnone) as (o1 & o2 & Ho & ->).
  rewrite Ho. unfold obj_entries.
  by rewrite (export_skip_empty codeId o1 o2
    (λ c rowId, "<Coding codeId=" +:+ dq +:+ c +:+ dq +:+ " dataPointId="
                +:+ dq +:+ String_RowID rowId +:+ dq +:+ "></Coding>")).
Qed.

(** Memos are kept newest first: after two calls of [createMemo] the registry
    starts with the second memo, then the first, as the calls returned them,
    followed by what it held; the log is untouched. *)
Theorem createMemo_newest_first (memo1 memo2 : MemoInput) (w : World) :
  let first := createMemo memo1 w in
  let second := createMemo memo2 first.2 in
  memos (store second.2) = second.1 :: first.1 :: memos (store w) ∧
  memo_content second.1 = mi_content memo2 ∧
  memo_content first.1 = mi_content memo1 ∧
  codingEvents (store second.2) = codingEvents (store w).
Proof. cbv zeta. simpl. by split_and!. Qed.

End MutationMore.

(** ** More about the worlds reached through the mutation API *)

Section ReachableMore.
Context {host : Host}.

Lemma create_events_snoc (events : list CodingEvent) (event : CodingEvent) :
  create_events (events ++ [event]) =
    create_events events ++
      (if decide (event_action event = Create) then [event] else []).
Proof. unfold create_events. by rewrite filter_app. Qed.

Lemma reachable_log_shape (w : World) :
  reachable w →
  Forall logged_by_api (codingEvents (store w)) ∧
  event_codeId <$> create_events (codingEvents (store w)) =
    code_id <$> codes (store w).
Proof.
  induction 1 as [w Hfresh|call w Hreach [IHlog IHcreate]].
  - rewrite Hfresh. simpl. split; [constructor | done].
  - destruct call as [partial|codeId rowIds|codeId rowIds|memo|rel|actor|link];
      unfold perform; try (split; [exact IHlog | exact IHcreate]).
    + simpl. split.
      * apply Forall_app. split; [done|]. by repeat constructor.
      * rewrite create_events_snoc, !fmap_app, IHcreate. done.
    + destruct (decide (rowIds = [])) as [->|Hne]; [done|].
      rewrite applyCode_world by done. cbn [codes codingEvents]. split.
      * apply Forall_app. split; [done|]. by repeat constructor.
      * rewrite create_events_snoc. simpl. by rewrite app_nil_r.
    + destruct (decide (rowIds = [])) as [->|Hne]; [done|].
      rewrite removeCode_world by done. cbn [codes codingEvents]. split.
      * apply Forall_app. split; [done|]. by repeat constructor.
      * rewrite create_events_snoc. simpl. by rewrite app_nil_r.
Qed.

Lemma length_filter_drop {A} (P : A → Prop) `{!∀ x, Decision (P x)}
  (n : nat) (l : list A) :
  length (filter P (drop n l)) ≤ length (filter P l).
Proof.
  rewrite <- (take_drop n l) at 2. rewrite filter_app, length_app. lia.
Qed.

(** The log of a store driven through the API from its fresh state: it holds
    create events without rows, apply and remove events with rows, and
    nothing else; its create events name the registered codes, one each and
    in registration order; so [recentNewCodes] never exceeds [totalCodes]. *)
Theorem reachable_log (w : World) :
  reachable w →
  let s := store w in
  Forall logged_by_api (codingEvents s) ∧
  event_codeId <$> create_events (codingEvents s) = code_id <$> codes s ∧
  recentNewCodes (saturation (codes s) (codingEvents s)) ≤
    totalCodes (saturation (codes s) (codingEvents s)).
Proof.
  intros Hreach. cbv zeta.
  destruct (reachable_log_shape w Hreach) as [Hlog Hcreate].
  split_and!; [done..|].
  unfold saturation. cbn [recentNewCodes totalCodes]. unfold slice_last.
  etrans; [apply length_filter_drop|].
  fold (create_events (codingEvents (store w))).
  by rewrite <- (length_fmap code_id), <- Hcreate, length_fmap.
Qed.

Lemma perform_entropy (call : MutationCall) (w : World) :
  entropy (perform call w) = entropy w ∧
  ids_drawn w ≤ ids_drawn (perform call w).
Proof.
  destruct call as [partial|codeId rowIds|codeId rowIds|memo|rel|actor|link];
    unfold perform.
  - simpl. split; [done|lia].
  - unfold applyCode. case_decide; simpl; split; done || lia.
  - unfold removeCode. case_decide; simpl; split; done || lia.
  - simpl. split; [done|lia].
  - simpl. split; [done|lia].
  - simpl. split; [done|lia].
  - simpl. split; [done|lia].
Qed.

Lemma reachable_code_ids_drawn (w : World) :
  reachable w →
  (∀ m n, entropy w m = entropy w n → m = n) →
  NoDup (code_id <$> codes (store w)) ∧
  ∀ id, id ∈ code_id <$> codes (store w) →
        ∃ n, n < ids_drawn w ∧ id = "code" +:+ "-" +:+ entropy w n.
Proof.
  induction 1 as [w Hfresh|call w Hreach IH]; intros Hinj.
  - rewrite Hfresh. simpl. split; [apply NoDup_nil_2|].
    intros id Hid. by apply elem_of_nil in Hid.
  - destruct (perform_entropy call w) as [Hentropy Hdrawn].
    rewrite Hentropy in Hinj |- *. destruct (IH Hinj) as [IHnd IHids].
    assert (∀ id, id ∈ code_id <$> codes (store w) →
              ∃ n, n < ids_drawn (perform call w) ∧
                   id = "code" +:+ "-" +:+ entropy w n) as IHids'.
    { intros id Hid. destruct (IHids id Hid) as (n & Hn & ->).
      exists n. split; [lia|done]. }
    destruct call as [partial|codeId rowIds|codeId rowIds|memo|rel|actor|link];
      unfold perform in *; try (split; [exact IHnd | exact IHids']).
    + clear IHids'. simpl. rewrite fmap_app. simpl. split.
      * apply NoDup_app. split_and!; [done| |apply NoDup_singleton].
        intros id Hid ->%list_elem_of_singleton.
        destruct (IHids _ Hid) as (n & Hn & Heq).
        simpl in Heq. injection Heq as Heq. apply Hinj in Heq. lia.
      * intros id [Hid| ->%list_elem_of_singleton]%elem_of_app.
        -- destruct (IHids id Hid) as (n & Hn & ->). exists n. split; [lia|done].
        -- exists (ids_drawn w). split; [lia|done].
    + destruct (decide (rowIds = [])) as [->|Hne];
        [split; [exact IHnd | exact IHids']|].
      rewrite applyCode_world in * by done. split; [exact IHnd|].
      intros id Hid. destruct (IHids id Hid) as (n & Hn & ->).
      exists n. split; [|done]. unfold applyCode. rewrite decide_False.
      * simpl. done.
      * by destruct rowIds.
    + destruct (decide (rowIds = [])) as [->|Hne];
        [split; [exact IHnd | exact IHids']|].
      rewrite removeCode_world in * by done. split; [exact IHnd|].
      intros id Hid. destruct (IHids id Hid) as (n & Hn & ->).
      exists n. split; [|done]. unfold removeCode. rewrite decide_False.
      * simpl. done.
      * by destruct rowIds.
Qed.

(** As long as the source of identifiers never repeats itself, no two
    registered codes have the same identifier, and every identifier is
    "code-" followed by what the source gave. *)
Theorem reachable_code_ids (w : World) :
  reachable w →
  (∀ m n, entropy w m = entropy w n → m = n) →
  NoDup (code_id <$> codes (store w)) ∧
  ∀ code, code ∈ codes (store w) →
          ∃ n, code_id code = "code-" +:+ entropy w n.
Proof.
  intros Hreach Hinj.
  destruct (reachable_code_ids_drawn w Hreach Hinj) as [Hnd Hids].
  split; [done|]. intros code Hcode.
  destruct (Hids (code_id code)) as (n & _ & Hn).
  - by apply list_elem_of_fmap_2.
  - by exists n.
Qed.

End ReachableMore.

(** ** More about the derived stores *)

Section DerivedMore.
Context {host : Host}.

Lemma palette_NoDup : NoDup palette.
Proof. apply (bool_decide_unpack _). vm_compute. exact I. Qed.

Lemma createCode_color (partial : PartialCode) (w : World) :
  code_color (createCode partial w).1 =
    default (toColor (length (codes (store w)))) (partial_color partial).
Proof. reflexivity. Qed.

(** Two codes created without a colour get the same colour exactly when the
    sizes of the registry at their creation differ by a multiple of the
    palette length, 8. *)
Theorem createCode_color_cycle (partial1 partial2 : PartialCode)
  (w1 w2 : World) :
  partial_color partial1 = None →
  partial_color partial2 = None →
  code_color (createCode partial1 w1).1 = code_color (createCode partial2 w2).1
  ↔ length (codes (store w1)) mod 8 = length (codes (store w2)) mod 8.
Proof.
  intros Hc1 Hc2. rewrite !createCode_color, Hc1, Hc2.
  cbn [default from_option].
  pose proof (palette_lookup (length (codes (store w1)))) as H1.
  pose proof (palette_lookup (length (codes (store w2)))) as H2.
  change (length palette) with 8 in H1, H2. split.
  - intros Heq. rewrite Heq in H1.
    by apply (NoDup_lookup _ _ _ _ palette_NoDup H1 H2).
  - intros Heq. rewrite Heq in H1. congruence.
Qed.

Lemma saturation_recent_le (codes' : list Code) (events : list CodingEvent) :
  recentNewCodes (saturation codes' events) ≤ 50 ∧
  recentNewCodes (saturation codes' events) ≤ length events.
Proof.
  unfold saturation, slice_last. cbn [recentNewCodes].
  pose proof (length_filter (λ e : CodingEvent, event_action e = Create)
                (drop (length events - 50) events)) as Hle.
  rewrite length_drop in Hle. lia.
Qed.

(** [recentNewCodes] is at most 50 and at most the length of the log; a log
    of two events or fewer, the empty log of a fresh store included, reads
    as "Approaching saturation". *)
Theorem saturation_bounds (codes' : list Code) (events : list CodingEvent) :
  recentNewCodes (saturation codes' events) ≤ 50 ∧
  recentNewCodes (saturation codes' events) ≤ length events ∧
  (length events ≤ 2 →
   trend (saturation codes' events) = "Approaching saturation").
Proof.
  destruct (saturation_recent_le codes' events) as [H50 Hlen].
  split_and!; [done..|]. intros Hshort.
  unfold saturation in *. cbn [recentNewCodes trend] in *.
  rewrite decide_True; [done|lia].
Qed.

Lemma slice_last_app_le {A} (n : nat) (older tail : list A) :
  length tail ≤ n →
  slice_last n (older ++ tail) = slice_last (n - length tail) older ++ tail.
Proof.
  intros Hle. unfold slice_last. rewrite length_app, drop_app.
  replace (length older + length tail - n)
    with (length older - (n - length tail)) by lia.
  replace (length older - (n - length tail) - length older) with 0 by lia.
  done.
Qed.

Lemma saturation_after_creates (codes' : list Code)
  (older tail : list CodingEvent) :
  length tail ≤ 50 →
  Forall (λ e, event_action e = Create) tail →
  length tail ≤ recentNewCodes (saturation codes' (older ++ tail)).
Proof.
  intros Hlen Hcreate. unfold saturation. cbn [recentNewCodes].
  rewrite slice_last_app_le, filter_app, length_app by done.
  assert (filter (λ e : CodingEvent, event_action e = Create) tail = tail) as ->.
  { clear Hlen. induction Hcreate as [|e tail He _ IH]; [done|].
    by rewrite filter_cons_True, IH. }
  lia.
Qed.

(** Three codes created in a row always turn the trend to "Exploring",
    whatever the log held before. *)
Theorem createCode_thrice_exploring (partial1 partial2 partial3 : PartialCode)
  (w : World) :
  let w1 := (createCode partial1 w).2 in
  let w2 := (createCode partial2 w1).2 in
  let w3 := (createCode partial3 w2).2 in
  let result := saturation (codes (store w3)) (codingEvents (store w3)) in
  3 ≤ recentNewCodes result ∧ trend result = "Exploring".
Proof.
  cbv zeta. simpl codingEvents. rewrite <- !app_assoc. simpl app.
  match goal with
  | |- context [saturation ?cs (?older ++ ?tail)] =>
      pose proof (saturation_after_creates cs older tail) as Hthree
  end.
  simpl length in Hthree at 1 2.
  assert (3 ≤ 50) as H50 by lia. specialize (Hthree H50).
  split.
  - apply Hthree. by repeat constructor.
  - unfold saturation in *. cbn [recentNewCodes trend] in *.
    rewrite decide_False; [done|]. intros Hle.
    assert (3 ≤ 2); [|lia]. etrans; [|exact Hle].
    apply Hthree. by repeat constructor.
Qed.

End DerivedMore.

(** ** More about the index by row and the co-occurrence matrix *)

Section IndexMore.
Context {host : Host}.












End IndexMore.

Section CooccurrenceMore.
Context {host : Host}.







End CooccurrenceMore.

(** ** The code hierarchy of the panel *)

Section PanelFacts.
Context {host : Host}.

Lemma flatMap_opt_elem_of {A B} (callback : A → option (list B)) (l : list A)
  (items : list B) (y : B) :
  flatMap_opt callback l = Some items →
  y ∈ items ↔ ∃ x ys, x ∈ l ∧ callback x = Some ys ∧ y ∈ ys.
Proof.
  revert items. induction l as [|x l IH]; intros items; simpl.
  - intros [= <-]. split; [by intros ?%elem_of_nil|].
    by intros (x & ys & ?%elem_of_nil & _).
  - destruct (callback x) as [ys|] eqn:Hx; [|done].
    destruct (flatMap_opt callback l) as [rest|]; [|done].
    intros [= <-]. rewrite elem_of_app, (IH rest eq_refl). split.
    + intros [Hy|(x' & ys' & Hx' & Hcall & Hy)].
      * exists x, ys. split_and!; [left|done..].
      * exists x', ys'. split_and!; [by right|done..].
    + intros (x' & ys' & [->|Hx']%elem_of_cons & Hcall & Hy).
      * left. congruence.
      * right. by exists x', ys'.
Qed.

Lemma flatMap_opt_is_Some {A B} (callback : A → option (list B)) (l : list A) :
  (∀ x, x ∈ l → is_Some (callback x)) → is_Some (flatMap_opt callback l).
Proof.
  induction l as [|x l IH]; intros Hall; simpl; [done|].
  destruct (Hall x) as [ys ->]; [left|].
  destruct IH as [rest ->]; [|done]. intros y Hy. apply Hall. by right.
Qed.

Lemma flatMap_opt_None {A B} (callback : A → option (list B)) (l : list A)
  (x : A) :
  x ∈ l → callback x = None → flatMap_opt callback l = None.
Proof.
  intros Hx Hnone. induction l as [|x' l IH]; simpl.
  - by apply elem_of_nil in Hx.
  - apply elem_of_cons in Hx as [<-|Hx]; [by rewrite Hnone|].
    destruct (callback x'); [|done]. by rewrite (IH Hx).
Qed.

Lemma flatMap_opt_mono {A B} (f g : A → option (list B)) (l : list A)
  (items : list B) :
  (∀ x ys, f x = Some ys → g x = Some ys) →
  flatMap_opt f l = Some items → flatMap_opt g l = Some items.
Proof.
  intros Hfg. revert items. induction l as [|x l IH]; intros items; simpl.
  - done.
  - destruct (f x) as [ys|] eqn:Hx; [|done]. rewrite (Hfg _ _ Hx).
    destruct (flatMap_opt f l) as [rest|]; [|done].
    by rewrite (IH rest eq_refl).
Qed.

Lemma flatCodes_more_fuel (codes' : list Code) (fuel extra : nat)
  (parentId : option string) (depth : nat) (items : list (Code * nat)) :
  flatCodes fuel codes' parentId depth = Some items →
  flatCodes (fuel + extra) codes' parentId depth = Some items.
Proof.
  revert parentId depth items.
  induction fuel as [|fuel IH]; intros parentId depth items; [done|].
  cbn [flatCodes Nat.add]. apply flatMap_opt_mono. intros code ys.
  destruct (flatCodes fuel codes' (Some (code_id code)) (depth + 1))
    as [sub|] eqn:Hsub; [|done].
  by rewrite (IH _ _ _ Hsub).
Qed.

Lemma NoDup_fmap_elem_inj {A B} (f : A → B) (l : list A) (x y : A) :
  NoDup (f <$> l) → x ∈ l → y ∈ l → f x = f y → x = y.
Proof.
  induction l as [|z l IH]; intros Hnd Hx Hy Hf.
  - by apply elem_of_nil in Hx.
  - rewrite fmap_cons in Hnd. apply NoDup_cons in Hnd as [Hz Hnd].
    apply elem_of_cons in Hx as [->|Hx]; apply elem_of_cons in Hy as [->|Hy].
    + done.
    + exfalso. apply Hz. rewrite Hf. by apply list_elem_of_fmap_2.
    + exfalso. apply Hz. rewrite <- Hf. by apply list_elem_of_fmap_2.
    + by apply IH.
Qed.

(** With distinct identifiers, a code cannot come up again on the way down
    from it. *)
Lemma descent_fresh (codes' path : list Code) (code : Code) :
  NoDup (code_id <$> codes') →
  NoDup path →
  (∀ c, c ∈ path → c ∈ codes') →
  descent path →
  code_parentId code = code_id <$> head path →
  code ∉ path.
Proof.
  intros Hids Hnd Hsub Hdesc Hparent Hin.
  destruct path as [|top path]; [by apply elem_of_nil in Hin|].
  simpl in Hparent.
  assert (∀ pre above, top :: path = pre ++ code :: above →
            descent (code :: above)) as Hsplit.
  { intros pre. revert Hdesc. generalize (top :: path). clear.
    induction pre as [|p pre IH]; intros l Hdesc above ->; [done|].
    destruct Hdesc as [_ Hdesc]. by apply (IH _ Hdesc). }
  apply list_elem_of_split in Hin as (pre & above & Heq).
  destruct (Hsplit pre above Heq) as [Hcode _].
  rewrite Hparent in Hcode.
  destruct above as [|d above]; [done|]. simpl in Hcode.
  injection Hcode as Hid.
  assert (top = d) as ->.
  { apply (NoDup_fmap_elem_inj code_id codes'); [done| | |done].
    - apply Hsub. left.
    - apply Hsub. rewrite Heq, elem_of_app. right. right. left. }
  rewrite Heq in Hnd. destruct pre as [|p pre].
  - injection Heq as -> _. apply NoDup_cons in Hnd as [Hout _].
    apply Hout. left.
  - injection Heq as -> _. apply NoDup_cons in Hnd as [Hout _].
    apply Hout. rewrite elem_of_app. right. right. left.
Qed.

Lemma flatCodes_descends (codes' : list Code) (fuel : nat)
  (path : list Code) (depth : nat) :
  NoDup (code_id <$> codes') →
  NoDup path →
  (∀ c, c ∈ path → c ∈ codes') →
  descent path →
  length codes' < fuel + length path →
  is_Some (flatCodes fuel codes' (code_id <$> head path) depth).
Proof.
  intros Hids. revert path depth.
  induction fuel as [|fuel IH]; intros path depth Hnd Hsub Hdesc Hlen.
  - exfalso. assert (length path ≤ length codes'); [|simpl in Hlen; lia].
    by apply submseteq_length, NoDup_submseteq.
  - cbn [flatCodes]. apply flatMap_opt_is_Some. intros code Hcode.
    apply list_elem_of_filter in Hcode as [Hparent Hcode].
    destruct (IH (code :: path) (depth + 1)) as [sub Hsub'].
    + apply NoDup_cons. split; [|done]. by apply (descent_fresh codes').
    + intros c [->|Hc]%elem_of_cons; [done|by apply Hsub].
    + by split.
    + simpl. lia.
    + simpl in Hsub'. by rewrite Hsub'.
Qed.

(** When no two codes share an identifier, [flatCodes(codes)] returns, and
    the recursion never goes deeper than the number of codes: every amount
    of fuel above it gives the same list. *)
Theorem flatCodes_returns (codes' : list Code) :
  NoDup (code_id <$> codes') →
  ∃ items, ∀ fuel, length codes' < fuel →
                   flatCodes fuel codes' None 0 = Some items.
Proof.
  intros Hids.
  destruct (flatCodes_descends codes' (S (length codes')) [] 0)
    as [items Hitems]; [done|apply NoDup_nil_2|by intros ? ?%elem_of_nil|done|
                        simpl; lia|].
  exists items. intros fuel Hfuel.
  replace fuel with (S (length codes') + (fuel - S (length codes'))) by lia.
  by apply flatCodes_more_fuel.
Qed.

Lemma flatCodes_elem_of (codes' : list Code) (fuel : nat)
  (parentId : option string) (depth : nat) (items : list (Code * nat))
  (item : Code * nat) :
  flatCodes (S fuel) codes' parentId depth = Some items →
  item ∈ items ↔
    ∃ root sub,
      root ∈ codes' ∧ code_parentId root = parentId ∧
      flatCodes fuel codes' (Some (code_id root)) (depth + 1) = Some sub ∧
      (item = (root, depth) ∨ item ∈ sub).
Proof.
  intros Hitems. cbn [flatCodes] in Hitems.
  rewrite (flatMap_opt_elem_of _ _ _ item Hitems). split.
  - intros (root & ys & Hroot & Hcall & Hitem).
    apply list_elem_of_filter in Hroot as [Hparent Hroot]. cbv beta in Hcall.
    destruct (flatCodes fuel codes' (Some (code_id root)) (depth + 1))
      as [sub|] eqn:Hsub; [|done].
    injection Hcall as <-. exists root, sub. split_and!; [done..|].
    by apply elem_of_cons in Hitem.
  - intros (root & sub & Hroot & Hparent & Hsub & Hitem).
    exists root, ((root, depth) :: sub). split_and!.
    + by apply list_elem_of_filter.
    + by rewrite Hsub.
    + by apply elem_of_cons.
Qed.

Lemma flatCodes_shape (codes' : list Code) (fuel : nat)
  (parentId : option string) (depth : nat) (items : list (Code * nat)) :
  flatCodes fuel codes' parentId depth = Some items →
  ∀ code d, (code, d) ∈ items →
    code ∈ codes' ∧
    ((d = depth ∧ code_parentId code = parentId) ∨
     (depth < d ∧
      ∃ parent, (parent, d - 1) ∈ items ∧
                code_parentId code = Some (code_id parent))).
Proof.
  revert parentId depth items.
  induction fuel as [|fuel IH]; intros parentId depth items Hitems code d Hin;
    [done|].
  pose proof (flatCodes_elem_of _ _ _ _ _ (code, d) Hitems) as Hiff.
  apply Hiff in Hin as (root & sub & Hroot & Hparent & Hsub & [[= -> ->]|Hin]).
  - split; [done|]. by left.
  - destruct (IH _ _ _ Hsub _ _ Hin) as [Hcode [[-> Hp]|[Hlt (par & Hpar & Hp)]]].
    + split; [done|]. right. split; [lia|]. exists root. split; [|done].
      replace (depth + 1 - 1) with depth by lia.
      apply (flatCodes_elem_of _ _ _ _ _ _ Hitems).
      exists root, sub. split_and!; [done..|]. by left.
    + split; [done|]. right. split; [lia|]. exists par. split; [|done].
      apply (flatCodes_elem_of _ _ _ _ _ _ Hitems).
      exists root, sub. split_and!; [done..|]. by right.
Qed.

(** What [flatCodes(codes)] lists: only codes of the registry; at depth 0
    exactly those listed codes that have no parent; a code with a parent one
    level below a listed code with that identifier. So a code whose parent
    identifier no code carries is never listed. *)
Theorem flatCodes_listed (codes' : list Code) (fuel : nat)
  (items : list (Code * nat)) (code : Code) (d : nat) :
  flatCodes fuel codes' None 0 = Some items →
  (code, d) ∈ items →
  code ∈ codes' ∧
  (d = 0 ↔ code_parentId code = None) ∧
  (∀ parentId, code_parentId code = Some parentId →
     ∃ parent, (parent, d - 1) ∈ items ∧ parent ∈ codes' ∧
               code_id parent = parentId ∧ 0 < d).
Proof.
  intros Hitems Hin.
  destruct (flatCodes_shape _ _ _ _ _ Hitems _ _ Hin)
    as [Hcode [[-> Hp]|[Hlt (par & Hpar & Hp)]]].
  - split_and!; [done|done|]. intros p Hsome. congruence.
  - split_and!; [done| |].
    + split; [lia|]. intros Hnone. congruence.
    + intros p Hsome. exists par. split_and!; [done| |congruence|done].
      by destruct (flatCodes_shape _ _ _ _ _ Hitems _ _ Hpar).
Qed.



Lemma flatCodes_loops (codes' : list Code) (code : Code) (fuel depth : nat) :
  code ∈ codes' →
  code_parentId code = Some (code_id code) →
  flatCodes fuel codes' (Some (code_id code)) depth = None.
Proof.
  intros Hcode Hself. revert depth.
  induction fuel as [|fuel IH]; intros depth; [done|].
  cbn [flatCodes]. apply (flatMap_opt_None _ _ code).
  - by apply list_elem_of_filter.
  - by rewrite IH.
Qed.

(** Where [flatCodes(codes)] does not return: when a code without a parent
    shares its identifier with a code that names that identifier as its own
    parent, the recursion goes on for ever, whatever the fuel. *)
Theorem flatCodes_diverges (codes' : list Code) (root code : Code)
  (fuel : nat) :
  root ∈ codes' →
  code ∈ codes' →
  code_parentId root = None →
  code_id root = code_id code →
  code_parentId code = Some (code_id code) →
  flatCodes fuel codes' None 0 = None.
Proof.
  intros Hroot Hcode Hnone Hid Hself.
  destruct fuel as [|fuel]; [done|].
  cbn [flatCodes]. apply (flatMap_opt_None _ _ root).
  - by apply list_elem_of_filter.
  - rewrite Hid. by rewrite (flatCodes_loops codes' code).
Qed.

Lemma ancestor_at_trans (codes' : list Code) (c x y : Code) (n m : nat) :
  ancestor_at codes' c x n → ancestor_at codes' x y m →
  ancestor_at codes' c y (n + m).
Proof.
  induction 1 as [c|c par x n Hpar Hparent _ IH]; intros Hxy; [done|].
  simpl. by apply (ancestor_step _ _ par); [..|apply IH].
Qed.

Lemma ancestor_at_inj (codes' : list Code) (c x x' : Code) (n : nat) :
  NoDup (code_id <$> codes') →
  ancestor_at codes' c x n → ancestor_at codes' c x' n → x = x'.
Proof.
  intros Hids Hx. revert x'.
  induction Hx as [c|c par x n Hpar Hparent _ IH]; intros x' Hx'.
  - by inversion Hx'.
  - inversion Hx' as [|c' par' x'' n' Hpar' Hparent' Hup]; subst.
    apply IH. replace par with par'; [done|].
    apply (NoDup_fmap_elem_inj code_id codes'); [done..|congruence].
Qed.

Lemma level_inj (codes' : list Code) (c : Code) (d d' : nat) :
  NoDup (code_id <$> codes') →
  level codes' c d → level codes' c d' → d = d'.
Proof.
  intros Hids (root & Hup & Hroot) (root' & Hup' & Hroot').
  revert d' Hup'. induction Hup as [c|c par x n Hpar Hparent _ IH];
    intros d' Hup'.
  - inversion Hup'; [done|congruence].
  - inversion Hup' as [|c' par' x'' n' Hpar' Hparent' Hup'']; subst;
      [congruence|].
    f_equal. apply (IH Hroot). replace par with par'; [done|].
    apply (NoDup_fmap_elem_inj code_id codes'); [done..|congruence].
Qed.

Lemma flatCodes_levels (codes' : list Code) (fuel : nat)
  (parentId : option string) (depth : nat) (items : list (Code * nat)) :
  hierarchy_call codes' parentId depth →
  flatCodes fuel codes' parentId depth = Some items →
  ∀ code d, (code, d) ∈ items →
    level codes' code d ∧ depth ≤ d ∧
    ∀ parent, parent ∈ codes' → parentId = Some (code_id parent) →
              ancestor_at codes' code parent (S (d - depth)).
Proof.
  revert parentId depth items.
  induction fuel as [|fuel IH]; intros parentId depth items Hcall Hitems code d Hin;
    [done|].
  apply (flatCodes_elem_of _ _ _ _ _ _ Hitems) in Hin
    as (root & sub & Hroot & Hparent & Hsub & Hin).
  assert (level codes' root depth) as Hlevel.
  { destruct parentId as [id|]; simpl in Hcall.
    - destruct Hcall as (par & Hpar & -> & (top & Hup & Htop) & Hdepth).
      exists top. split; [|done].
      replace depth with (S (depth - 1)) by lia.
      by apply (ancestor_step _ _ par).
    - subst depth. exists root. split; [constructor|done]. }
  assert (∀ parent, parent ∈ codes' → parentId = Some (code_id parent) →
            ancestor_at codes' root parent 1) as Hone.
  { intros par Hpar ->. apply (ancestor_step _ _ par); [done..|constructor]. }
  destruct Hin as [[= -> ->]|Hin].
  - split_and!; [done|lia|]. intros par Hpar Hp.
    replace (depth - depth) with 0 by lia. by apply Hone.
  - destruct (IH (Some (code_id root)) (depth + 1) sub) with (code := code) (d := d)
      as (Hcode & Hle & Hup); [|done|done|].
    { exists root. split_and!; [done|done| |lia].
      by replace (depth + 1 - 1) with depth by lia. }
    split_and!; [done|lia|]. intros par Hpar Hp.
    replace (S (d - depth)) with (S (d - (depth + 1)) + 1) by lia.
    apply (ancestor_at_trans _ _ root); [by apply Hup|by apply Hone].
Qed.

Lemma flatMap_opt_NoDup {A B C} (callback : A → option (list B))
  (g : B → C) (l : list A) (items : list B) :
  NoDup l →
  (∀ x ys, x ∈ l → callback x = Some ys → NoDup (g <$> ys)) →
  (∀ x x' ys ys' y y', x ∈ l → x' ∈ l →
     callback x = Some ys → callback x' = Some ys' →
     y ∈ ys → y' ∈ ys' → g y = g y' → x = x') →
  flatMap_opt callback l = Some items →
  NoDup (g <$> items).
Proof.
  revert items. induction l as [|x l IH]; intros items Hl Hown Hcross; simpl.
  - intros [= <-]. apply NoDup_nil_2.
  - apply NoDup_cons in Hl as [Hx Hl].
    destruct (callback x) as [ys|] eqn:Hcall; [|done].
    destruct (flatMap_opt callback l) as [rest|] eqn:Hrest; [|done].
    intros [= <-]. rewrite fmap_app. apply NoDup_app. split_and!.
    + apply (Hown x); [left|done].
    + intros z Hz Hz'.
      apply list_elem_of_fmap in Hz as (y & -> & Hy).
      apply list_elem_of_fmap in Hz' as (y' & Heq & Hy').
      apply (flatMap_opt_elem_of _ _ _ y' Hrest) in Hy'
        as (x' & ys' & Hx' & Hcall' & Hy').
      assert (x = x') as <-; [|done].
      apply (Hcross x x' ys ys' y y'); try done; [left|by right].
    + apply IH; [done| | |done].
      * intros x' ys' Hx'. apply Hown. by right.
      * intros x1 x2 ys1 ys2 y1 y2 H1 H2. apply Hcross; by right.
Qed.

Lemma flatCodes_NoDup (codes' : list Code) (fuel : nat)
  (parentId : option string) (depth : nat) (items : list (Code * nat)) :
  NoDup (code_id <$> codes') →
  hierarchy_call codes' parentId depth →
  flatCodes fuel codes' parentId depth = Some items →
  NoDup items.*1.
Proof.
  intros Hids. revert parentId depth items.
  induction fuel as [|fuel IH]; intros parentId depth items Hcall Hitems;
    [done|].
  pose proof (flatCodes_levels _ _ _ _ _ Hcall Hitems) as Hlevels.
  pose proof (λ item, flatCodes_elem_of _ _ _ _ _ item Hitems) as Hiff.
  assert (∀ root sub, root ∈ codes' → code_parentId root = parentId →
            flatCodes fuel codes' (Some (code_id root)) (depth + 1) = Some sub →
            hierarchy_call codes' (Some (code_id root)) (depth + 1) ∧
            level codes' root depth) as Hroots.
  { intros root sub Hroot Hparent Hsub.
    assert (level codes' root depth) as Hlevel.
    { apply (Hlevels root depth), Hiff. exists root, sub.
      split_and!; [done..|by left]. }
    split; [|done]. exists root. split_and!; [done|done| |lia].
    by replace (depth + 1 - 1) with depth by lia. }
  assert (∀ root sub c d, root ∈ codes' → code_parentId root = parentId →
            flatCodes fuel codes' (Some (code_id root)) (depth + 1) = Some sub →
            (c, d) ∈ sub →
            level codes' c d ∧ depth < d ∧
            ancestor_at codes' c root (S (d - (depth + 1)))) as Hsubs.
  { intros root sub c d Hroot Hparent Hsub Hin.
    destruct (Hroots _ _ Hroot Hparent Hsub) as [Hcall' _].
    destruct (flatCodes_levels _ _ _ _ _ Hcall' Hsub c d Hin)
      as (Hlevel & Hle & Hup).
    split_and!; [done|lia|]. by apply Hup. }
  cbn [flatCodes] in Hitems. revert Hitems.
  apply flatMap_opt_NoDup.
  - apply NoDup_filter. by apply (NoDup_fmap_1 code_id).
  - intros root ys [Hparent Hroot]%list_elem_of_filter Hys.
    destruct (flatCodes fuel codes' (Some (code_id root)) (depth + 1))
      as [sub|] eqn:Hsub; [|done].
    injection Hys as <-. rewrite fmap_cons. cbn [fst].
    destruct (Hroots _ _ Hroot Hparent Hsub) as [Hcall' Hlevel].
    apply NoDup_cons. split; [|by apply (IH _ _ _ Hcall' Hsub)].
    intros Hin. apply list_elem_of_fmap in Hin as ([c d] & Heq & Hin).
    simpl in Heq. subst c.
    destruct (Hsubs _ _ _ _ Hroot Hparent Hsub Hin) as (Hlevel' & Hlt & _).
    pose proof (level_inj _ _ _ _ Hids Hlevel Hlevel'). lia.
  - intros r1 r2 ys1 ys2 [c1 d1] [c2 d2]
      [Hp1 Hr1]%list_elem_of_filter [Hp2 Hr2]%list_elem_of_filter
      Hys1 Hys2 Hy1 Hy2 Heq.
    simpl in Heq. subst c2.
    destruct (flatCodes fuel codes' (Some (code_id r1)) (depth + 1))
      as [sub1|] eqn:Hsub1; [|done].
    destruct (flatCodes fuel codes' (Some (code_id r2)) (depth + 1))
      as [sub2|] eqn:Hsub2; [|done].
    injection Hys1 as <-. injection Hys2 as <-.
    destruct (Hroots _ _ Hr1 Hp1 Hsub1) as [_ Hlevel1].
    destruct (Hroots _ _ Hr2 Hp2 Hsub2) as [_ Hlevel2].
    apply elem_of_cons in Hy1 as [Heq1|Hy1];
      apply elem_of_cons in Hy2 as [Heq2|Hy2].
    + congruence.
    + injection Heq1 as -> ->.
      destruct (Hsubs _ _ _ _ Hr2 Hp2 Hsub2 Hy2) as (Hlevel' & Hlt & _).
      pose proof (level_inj _ _ _ _ Hids Hlevel1 Hlevel'). lia.
    + injection Heq2 as -> ->.
      destruct (Hsubs _ _ _ _ Hr1 Hp1 Hsub1 Hy1) as (Hlevel' & Hlt & _).
      pose proof (level_inj _ _ _ _ Hids Hlevel2 Hlevel'). lia.
    + destruct (Hsubs _ _ _ _ Hr1 Hp1 Hsub1 Hy1) as (Hl1 & Hlt1 & Hup1).
      destruct (Hsubs _ _ _ _ Hr2 Hp2 Hsub2 Hy2) as (Hl2 & Hlt2 & Hup2).
      pose proof (level_inj _ _ _ _ Hids Hl1 Hl2) as <-.
      exact (ancestor_at_inj codes' c1 r1 r2 _ Hids Hup1 Hup2).
Qed.

(** With distinct identifiers, [flatCodes(codes)] lists no code twice, and
    lists each code at the depth that is the number of its ancestors. *)
Theorem flatCodes_once (codes' : list Code) (fuel : nat)
  (items : list (Code * nat)) :
  NoDup (code_id <$> codes') →
  flatCodes fuel codes' None 0 = Some items →
  NoDup (code_id <$> items.*1) ∧
  ∀ code d, (code, d) ∈ items → level codes' code d.
Proof.
  intros Hids Hitems. split.
  - assert (NoDup items.*1) as Hnd by by apply (flatCodes_NoDup codes' fuel None 0).
    apply NoDup_fmap_2_strong; [|done].
    intros c c' Hc Hc' Hid.
    apply (NoDup_fmap_elem_inj code_id codes'); [done| | |done].
    + apply list_elem_of_fmap in Hc as ([c0 d] & -> & Hin).
      by destruct (flatCodes_shape _ _ _ _ _ Hitems _ _ Hin).
    + apply list_elem_of_fmap in Hc' as ([c0 d] & -> & Hin).
      by destruct (flatCodes_shape _ _ _ _ _ Hitems _ _ Hin).
  - intros code d Hin.
    by destruct (flatCodes_levels codes' fuel None 0 items eq_refl Hitems code d Hin).
Qed.

End PanelFacts.

(** ** The further properties at concrete inputs *)

Section SampleMore.
#[local] Existing Instance sample_host.

Lemma sample_entropy_inj (s : @Store sample_host) (m n : nat) :
  entropy (sample_world s) m = entropy (sample_world s) n → m = n.
Proof.
  simpl. intros Heq. apply DecimalNat.Unsigned.to_uint_inj.
  assert (∀ k, NilZero.uint_of_string (NilZero.string_of_uint (Nat.to_uint k))
               = Some (Nat.to_uint k)) as Hback.
  { intros k. apply NilZero.usu. intros Hnil.
    pose proof (DecimalNat.Unsigned.of_to k) as Hk. rewrite Hnil in Hk.
    subst k. discriminate Hnil. }
  pose proof (Hback m) as Hm. rewrite Heq, Hback in Hm. congruence.
Qed.

Lemma driven_world_reachable : reachable driven_world.
Proof.
  unfold driven_world. repeat apply reachable_perform.
  by apply reachable_fresh.
Qed.



Lemma applyCode_frequency_witness :
  let w := sample_world coded_store in
  let w' := (applyCode "code-A" [RowNumber 3; RowNumber 4] w).2 in
  NoDup (rows_of (assignments (store w)) "code-A") ∧
  Forall2 (λ after before, code_frequency before ≤ code_frequency after)
    (read_codesWithFrequency w').1 (read_codesWithFrequency w).1 ∧
  code_frequency <$> (read_codesWithFrequency w').1 = [4].
Proof.
  cbv zeta.
  assert (NoDup (rows_of (assignments (store (sample_world coded_store)))
                   "code-A")) as Hnd.
  { apply (bool_decide_unpack _). vm_compute. exact I. }
  split_and!; [exact Hnd | | vm_compute; reflexivity].
  exact (applyCode_frequency (host := sample_host) "code-A"
           [RowNumber 3; RowNumber 4] (sample_world coded_store) Hnd).
Defined.


Lemma exportRefiQda_after_removeCode_absent_witness :
  let w := sample_world coded_store in
  obj_get "code-B" (assignments (store w)) = None ∧
  (exportRefiQda (removeCode "code-B" [RowNumber 1] w).2).1
    = (exportRefiQda w).1 ∧
  obj_keys (assignments (store (removeCode "code-B" [RowNumber 1] w).2))
    = ["code-A"; "code-B"].
Proof.
  cbv zeta.
  assert (obj_get "code-B"
            (assignments (store (sample_world coded_store))) = None)
    as Hnone by reflexivity.
  split_and!; [exact Hnone | | reflexivity].
  exact (exportRefiQda_after_removeCode_absent (host := sample_host) "code-B"
           [RowNumber 1] (sample_world coded_store) Hnone).
Defined.

Lemma reachable_log_witness :
  reachable driven_world ∧
  event_action <$> codingEvents (store driven_world)
    = [Create; Apply; Remove] ∧
  event_codeId <$> create_events (codingEvents (store driven_world))
    = code_id <$> codes (store driven_world).
Proof.
  destruct (reachable_log (host := sample_host) driven_world
              driven_world_reachable) as (_ & Hcreate & _).
  split_and!; [exact driven_world_reachable | vm_compute; reflexivity | exact Hcreate].
Defined.

Lemma reachable_code_ids_witness :
  reachable driven_world ∧
  (∀ m n, entropy driven_world m = entropy driven_world n → m = n) ∧
  NoDup (code_id <$> codes (store driven_world)) ∧
  code_id <$> codes (store driven_world) = ["code-0"].
Proof.
  assert (∀ m n, entropy driven_world m = entropy driven_world n → m = n)
    as Hinj by apply (sample_entropy_inj empty_store).
  destruct (reachable_code_ids (host := sample_host) driven_world
              driven_world_reachable Hinj) as [Hnd _].
  split_and!; [exact driven_world_reachable | exact Hinj | exact Hnd |
               vm_compute; reflexivity].
Defined.

Lemma reachable_assignments_witness :
  reachable driven_world ∧
  NoDup (obj_keys (assignments (store driven_world))) ∧
  assignments (store driven_world)
    = [("code-0", [RowNumber 1; RowNumber 3])].
Proof.
  destruct (reachable_assignments (host := sample_host) driven_world
              driven_world_reachable) as [Hkeys _].
  split_and!; [exact driven_world_reachable | exact Hkeys | vm_compute; reflexivity].
Defined.

Lemma createCode_color_cycle_witness :
  let w := sample_world (sample_store (replicate 8 (sample_code "c" "n" "#000")) []) in
  partial_color no_partial = None ∧
  length (codes (store w)) mod 8
    = length (codes (store (sample_world empty_store))) mod 8 ∧
  code_color (createCode no_partial w).1
    = code_color (createCode no_partial (sample_world empty_store)).1.
Proof.
  cbv zeta.
  split_and!; [reflexivity | reflexivity |].
  apply (createCode_color_cycle (host := sample_host)); reflexivity.
Defined.



Lemma sample_hierarchy_flat :
  flatCodes 6 sample_hierarchy None 0 =
    Some [(sample_code "code-A" "A" "#2563eb", 0);
          (child_code "code-B" "B" "code-A", 1);
          (child_code "code-C" "C" "code-B", 2);
          (sample_code "code-E" "E" "#f97316", 0)].
Proof. vm_compute. reflexivity. Qed.

Lemma flatCodes_returns_witness :
  NoDup (code_id <$> sample_hierarchy) ∧
  ∃ items, ∀ fuel, length sample_hierarchy < fuel →
                   flatCodes fuel sample_hierarchy None 0 = Some items.
Proof.
  assert (NoDup (code_id <$> sample_hierarchy)) as Hids.
  { apply (bool_decide_unpack _). vm_compute. exact I. }
  exact (conj Hids (flatCodes_returns (host := sample_host) sample_hierarchy Hids)).
Defined.

Lemma flatCodes_listed_witness :
  let items :=
    [(sample_code "code-A" "A" "#2563eb", 0);
     (child_code "code-B" "B" "code-A", 1);
     (child_code "code-C" "C" "code-B", 2);
     (sample_code "code-E" "E" "#f97316", 0)] in
  flatCodes 6 sample_hierarchy None 0 = Some items ∧
  (child_code "code-C" "C" "code-B", 2) ∈ items ∧
  ∃ parent, (parent, 1) ∈ items ∧ code_id parent = "code-B".
Proof.
  cbv zeta.
  assert ((child_code "code-C" "C" "code-B", 2) ∈
            [(sample_code "code-A" "A" "#2563eb", 0);
             (child_code "code-B" "B" "code-A", 1);
             (child_code "code-C" "C" "code-B", 2);
             (sample_code "code-E" "E" "#f97316", 0)]) as Hin
    by (right; right; left).
  destruct (flatCodes_listed (host := sample_host) _ _ _ _ _
              sample_hierarchy_flat Hin) as (_ & _ & Hparent).
  destruct (Hparent "code-B" eq_refl) as (parent & Hlisted & _ & Hid & _).
  split_and!; [exact sample_hierarchy_flat | exact Hin |].
  exists parent. split; [exact Hlisted | exact Hid].
Defined.


Lemma flatCodes_diverges_witness :
  sample_code "code-A" "A" "#2563eb" ∈ looping_codes ∧
  child_code "code-A" "A too" "code-A" ∈ looping_codes ∧
  flatCodes 1000 looping_codes None 0 = None.
Proof.
  assert (sample_code "code-A" "A" "#2563eb" ∈ looping_codes) as Hroot by left.
  assert (child_code "code-A" "A too" "code-A" ∈ looping_codes) as Hcode
    by (right; left).
  split_and!; [exact Hroot | exact Hcode |].
  exact (flatCodes_diverges (host := sample_host) looping_codes _ _ 1000
           Hroot Hcode eq_refl eq_refl eq_refl).
Defined.

Lemma flatCodes_once_witness :
  NoDup (code_id <$> sample_hierarchy) ∧
  flatCodes 6 sample_hierarchy None 0 =
    Some [(sample_code "code-A" "A" "#2563eb", 0);
          (child_code "code-B" "B" "code-A", 1);
          (child_code "code-C" "C" "code-B", 2);
          (sample_code "code-E" "E" "#f97316", 0)] ∧
  level sample_hierarchy (child_code "code-C" "C" "code-B") 2.
Proof.
  assert (NoDup (code_id <$> sample_hierarchy)) as Hids.
  { apply (bool_decide_unpack _). vm_compute. exact I. }
  destruct (flatCodes_once (host := sample_host) _ _ _ Hids
              sample_hierarchy_flat) as [_ Hlevels].
  split_and!; [exact Hids | exact sample_hierarchy_flat |].
  apply Hlevels. right. right. left.
Defined.

End SampleMore.
